(** * iprange: conversion of an IP address range into CIDR subnets

    A shallow embedding of [JavaScript/iprange.js] and the verification of
    its specification.  The IPv4 code works on JavaScript Numbers and the
    IPv6 code on BigInts; both are modelled on [Z].  Every Number the IPv4
    decomposer computes is an integer below [2^33] and every division is by
    a power of two, so the double arithmetic of the source is exact and
    [Math.trunc (a / b)] is [Z.quot a b], which is also what the BigInt
    operator [/] computes. *)

From Stdlib Require Import ZArith List Bool Lia String Ascii Sorted.
Import ListNotations.

Open Scope Z_scope.

(** ** A small option monad for the partial functions of the model *)

Definition obind {A B : Type} (m : option A) (k : A -> option B) : option B :=
  match m with
  | Some a => k a
  | None => None
  end.

Notation "x <- m ;; k" := (obind m (fun x => k))
  (at level 61, m at next level, right associativity).
Notation "' p <- m ;; k" := (obind m (fun x => match x with p => k end))
  (at level 61, p pattern, m at next level, right associativity).

(** ** The decomposer: [_makeIPv4SubnetFromRange], [_makeIPv6SubnetFromRange]

    The two functions of the source are the same text up to the address
    width, the first segment size and the formatting of the base address.
    They are embedded once, over these three parameters. *)

Module Decomposer.

Section Code.
(** [Store] is what the procedure threads through its calls (the array
    [arraySave]); [push b i] is [arraySave.push(text of b + '/' + i)]. *)
Context {Store : Type}.
Variable width : Z.
Variable initSegSize : Z.
Variable push : Z -> Z -> Store -> Store.

(** The inner [while (intSegEnd <= intBlockEnd)] loop.  [n] bounds the
    number of iterations left; the loop answers [None] when it would
    need more. *)
Fixpoint emit_segments (n : nat) (i intSegSize intSegStart intBlockEnd : Z)
         (arraySave : Store) : option (Z * Store) :=
  let intSegEnd := intSegStart + intSegSize - 1 in
  if intSegEnd <=? intBlockEnd then
    match n with
    | O => None
    | S n' =>
        emit_segments n' i intSegSize (intSegStart + intSegSize) intBlockEnd
                      (push intSegStart i arraySave)
    end
  else Some (intSegStart, arraySave).

(** The variables the [for] loop updates. *)
Record loop_state : Type := LoopState {
  intStartAddr : Z;
  intEndAddr : Z;
  intSegSize : Z;
  arraySave : Store
}.

(** One iteration of the [for] loop, for the prefix length [i].  [self] is
    the procedure itself, for the two recursive calls.  The [while] loop
    is given the value of its variant on entry, the number of segments
    between [intBlockStart] and [intBlockEnd]. *)
Definition loop_body (self : Z -> Z -> Store -> option Store)
           (i : Z) (st : loop_state) : option loop_state :=
  let seg := intSegSize st in
  let intBlockStart := Z.quot (intStartAddr st + seg - 1) seg * seg in
  let intBlockEnd := Z.quot (intEndAddr st + 1) seg * seg - 1 in
  st' <-
    (if intBlockStart <=? intBlockEnd then
       save1 <- (if intStartAddr st <? intBlockStart
                 then self (intStartAddr st) (intBlockStart - 1) (arraySave st)
                 else Some (arraySave st)) ;;
       '(intSegStart, save2) <-
          emit_segments (Z.to_nat ((intBlockEnd + 1 - intBlockStart) / seg))
                        i seg intBlockStart intBlockEnd save1 ;;
       if intBlockEnd <? intEndAddr st then
         save3 <- self (intBlockEnd + 1) (intEndAddr st) save2 ;;
         Some (LoopState intSegStart intBlockEnd seg save3)
       else
         Some (LoopState intSegStart (intEndAddr st) seg save2)
     else Some st) ;;
  Some (LoopState (intStartAddr st') (intEndAddr st')
                  (Z.quot (intSegSize st') 2) (arraySave st')).

(** [for (let i = ...; i <= width; ++i)], from the current value of [i].
    [n] bounds the iterations left; the result counts the iterations
    performed. *)
Fixpoint for_loop (self : Z -> Z -> Store -> option Store)
         (n : nat) (i : Z) (st : loop_state) : option (nat * loop_state) :=
  if i <=? width then
    match n with
    | O => None
    | S n' =>
        st' <- loop_body self i st ;;
        '(k, st'') <- for_loop self n' (i + 1) st' ;;
        Some (S k, st'')
    end
  else Some (O, st).

(** The procedure.  [fuel] bounds the depth of the recursion. *)
Fixpoint make (fuel : nat) (intStartAddr intEndAddr : Z) (arraySave : Store)
  : option Store :=
  match fuel with
  | O => None
  | S fuel' =>
      '(_, LoopState _ _ _ save) <-
         for_loop (make fuel') (Z.to_nat width) 1
                  (LoopState intStartAddr intEndAddr initSegSize arraySave) ;;
      Some save
  end.

End Code.

(** The same procedure with a record of its recursive calls: beside the
    array, the store carries the list of the intervals the invocation hands
    to them. *)
Section Trace.
Context {Store : Type}.
Variable width : Z.
Variable initSegSize : Z.
Variable push : Z -> Z -> Store -> Store.

Definition call_log : Type := list (Z * Z).

Definition traced_push (b i : Z) (sl : Store * call_log) : Store * call_log :=
  (push b i (fst sl), snd sl).

Definition traced (self : Z -> Z -> Store -> option Store)
           (s e : Z) (sl : Store * call_log) : option (Store * call_log) :=
  save <- self s e (fst sl) ;;
  Some (save, snd sl ++ [(s, e)]).

(** The loop variables of the plain procedure, with a log beside the
    array. *)
Definition with_log (log : call_log) (st : @loop_state Store)
  : @loop_state (Store * call_log) :=
  LoopState (intStartAddr st) (intEndAddr st) (intSegSize st) (arraySave st, log).

(** One invocation: the number of iterations of its [for] loop, the
    recursive calls it made, and the array it leaves. *)
Definition make_traced (fuel : nat) (intStartAddr intEndAddr : Z)
           (arraySave : Store) : option (nat * call_log * Store) :=
  match fuel with
  | O => None
  | S fuel' =>
      '(k, LoopState _ _ _ sl) <-
         for_loop width traced_push (traced (make width initSegSize push fuel'))
                  (Z.to_nat width) 1
                  (LoopState intStartAddr intEndAddr initSegSize (arraySave, [])) ;;
      Some (k, snd sl, fst sl)
  end.

End Trace.

(** A subnet is its base address and its prefix length. *)
Definition subnet : Type := (Z * Z)%type.

(** [arraySave.push(render (b, i))], for a rendering of the subnets. *)
Definition push_render {A : Type} (render : subnet -> A) (b i : Z) (save : list A)
  : list A :=
  save ++ [render (b, i)].

(** The decomposer that collects the subnets themselves. *)
Definition subnets (width : Z) (fuel : nat) (s e : Z) : option (list subnet) :=
  make width (2 ^ (width - 1)) (push_render (fun sn => sn)) fuel s e [].

End Decomposer.

Import Decomposer.

(** ** The JavaScript primitives the source relies on

    Strings are sequences of code units; the model takes the code units
    below 256 ([ascii]), which cover every character the grammar of the
    program distinguishes. *)

Module JS.

(** A Number is an integer or [NaN].  The source computes no fraction that
    it does not truncate at once, and [-0] behaves as [0] in every operation
    it is put through, so the two are one value here. *)
Inductive number : Type :=
  | NaN
  | Num (z : Z).

Definition num_add (a b : number) : number :=
  match a, b with
  | Num x, Num y => Num (x + y)
  | _, _ => NaN
  end.

Definition num_mul (a b : number) : number :=
  match a, b with
  | Num x, Num y => Num (x * y)
  | _, _ => NaN
  end.

(** Comparisons: every comparison with [NaN] is false. *)
Definition num_ltb (a b : number) : bool :=
  match a, b with
  | Num x, Num y => x <? y
  | _, _ => false
  end.

Definition num_geb (a b : number) : bool :=
  match a, b with
  | Num x, Num y => y <=? x
  | _, _ => false
  end.

Definition num_gtb (a b : number) : bool := num_ltb b a.

(** The conversions behind the 32-bit operators. *)
Definition ToUint32 (a : number) : Z :=
  match a with
  | NaN => 0
  | Num z => z mod 2 ^ 32
  end.

Definition ToInt32 (a : number) : Z :=
  let u := ToUint32 a in
  if u <? 2 ^ 31 then u else u - 2 ^ 32.

(** [a >>> k] and [a & b]. *)
Definition ushr (a : number) (k : Z) : number :=
  Num (Z.shiftr (ToUint32 a) (k mod 32)).

Definition band (a b : number) : number :=
  Num (Z.land (ToInt32 a) (ToInt32 b)).

(** [s.indexOf(c) != -1] *)
Fixpoint contains (c : ascii) (s : string) : bool :=
  match s with
  | EmptyString => false
  | String x s' => if Ascii.eqb x c then true else contains c s'
  end.

(** [s.split(sep)] for a separator of one character. *)
Fixpoint split (sep : ascii) (s : string) : list string :=
  match s with
  | EmptyString => [EmptyString]
  | String c s' =>
      if Ascii.eqb c sep then EmptyString :: split sep s'
      else match split sep s' with
           | [] => [String c EmptyString]
           | h :: t => String c h :: t
           end
  end.

(** White space as [parseInt] and [BigInt] skip it. *)
Definition isWhiteSpace (c : ascii) : bool :=
  match N_of_ascii c with
  | 9 | 10 | 11 | 12 | 13 | 32 | 160 => true
  | _ => false
  end%N.

Fixpoint trimStart (s : string) : string :=
  match s with
  | EmptyString => EmptyString
  | String c s' => if isWhiteSpace c then trimStart s' else s
  end.

Fixpoint trimEnd (s : string) : string :=
  match s with
  | EmptyString => EmptyString
  | String c s' =>
      match trimEnd s' with
      | EmptyString => if isWhiteSpace c then EmptyString else String c EmptyString
      | r => String c r
      end
  end.

Definition code (c : ascii) : Z := Z.of_N (N_of_ascii c).

Definition decimal_value (c : ascii) : option Z :=
  if (48 <=? code c) && (code c <=? 57) then Some (code c - 48) else None.

Definition hex_value (c : ascii) : option Z :=
  if (48 <=? code c) && (code c <=? 57) then Some (code c - 48)
  else if (97 <=? code c) && (code c <=? 102) then Some (code c - 87)
  else if (65 <=? code c) && (code c <=? 70) then Some (code c - 55)
  else None.

(** The values of the longest prefix of decimal digits. *)
Fixpoint decimal_prefix (s : string) : list Z :=
  match s with
  | EmptyString => []
  | String c s' =>
      match decimal_value c with
      | Some d => d :: decimal_prefix s'
      | None => []
      end
  end.

Definition horner (radix : Z) (ds : list Z) : Z :=
  fold_left (fun acc d => acc * radix + d) ds 0.

(** [parseInt(s, 10)]: white space, a sign, then the longest run of digits;
    [NaN] when there is no digit.  The result is the integer the digits
    denote; the Number is its nearest double, which differs only above
    [2^53], where the comparisons the source makes answer the same. *)
Definition parseInt (s : string) : number :=
  let t := trimStart s in
  let '(sign, r) :=
    match t with
    | String "-" r => (-1, r)
    | String "+" r => (1, r)
    | _ => (1, t)
    end in
  match decimal_prefix r with
  | [] => NaN
  | ds => Num (sign * horner 10 ds)
  end.

(** [parseInt(array[i], 10)]: a missing element is [undefined], which
    parses to [NaN]. *)
Definition parseInt_at (array : list string) (i : nat) : number :=
  match nth_error array i with
  | Some s => parseInt s
  | None => NaN
  end.

Fixpoint hex_digits (s : string) : option (list Z) :=
  match s with
  | EmptyString => Some []
  | String c s' =>
      d <- hex_value c ;;
      ds <- hex_digits s' ;;
      Some (d :: ds)
  end.

(** [BigInt('0x' + h)]; [None] is the SyntaxError it raises when what
    follows the prefix is not a non-empty run of hex digits (white space at
    the end is skipped). *)
Definition BigInt_0x (h : string) : option Z :=
  match hex_digits (trimEnd h) with
  | Some (d :: ds) => Some (horner 16 (d :: ds))
  | _ => None
  end.

(** [BigInt('0x' + array[i])]: a missing element gives '0xundefined'. *)
Definition BigInt_0x_at (array : list string) (i : nat) : option Z :=
  match nth_error array i with
  | Some h => BigInt_0x h
  | None => None
  end.

Definition digit_char (d : Z) : ascii :=
  ascii_of_N (Z.to_N (if d <? 10 then 48 + d else 87 + d)).

(** The digits of [n >= 0] in [radix], most significant first, in front of
    [acc]; [fuel] bounds the number of digits after the first. *)
Fixpoint digits_to (radix : Z) (fuel : nat) (n : Z) (acc : string) : string :=
  let acc' := String (digit_char (n mod radix)) acc in
  match fuel with
  | O => acc'
  | S f => if n / radix =? 0 then acc' else digits_to radix f (n / radix) acc'
  end.

(** [n.toString(radix)] for an integer [n]. *)
Definition toString (radix : Z) (n : Z) : string :=
  if n <? 0
  then String "-" (digits_to radix (Z.to_nat (Z.log2 (- n))) (- n) EmptyString)
  else digits_to radix (Z.to_nat (Z.log2 n)) n EmptyString.

(** [x.toString(10)] for a Number. *)
Definition num_toString (a : number) : string :=
  match a with
  | NaN => "NaN"%string
  | Num z => toString 10 z
  end.

(** [s.slice(-k)]: the last [k] characters. *)
Definition slice_last (k : nat) (s : string) : string :=
  substring (String.length s - k) k s.

End JS.

Import JS.

Open Scope string_scope.

(** ** Address checks and conversions *)

(** [_isIPv4Addr]: four groups, and no group that parses to a Number
    [>= 256] or [< 0]. *)
Definition _isIPv4Addr (strIPv4Addr : string) : bool :=
  let arrayStrIPv4Octet := split "." strIPv4Addr in
  if negb (List.length arrayStrIPv4Octet =? 4)%nat then false
  else
    forallb (fun strOctet =>
               let intOctet := parseInt strOctet in
               negb (num_geb intOctet (Num 256) || num_ltb intOctet (Num 0)))
            arrayStrIPv4Octet.

(** The test the source makes on each of the four characters of a group;
    [c] is a string of one character and the comparisons are those of
    strings. *)
Definition is_lower_hex (c : string) : bool :=
  (String.leb "0" c && String.leb c "9") || (String.leb "a" c && String.leb c "f").

(** [_isIPv6Addr]: eight groups of four characters, each a digit or one of
    a to f. *)
Definition _isIPv6Addr (strIPv6Addr : string) : bool :=
  let arrayStrIPv6Hextet := split ":" strIPv6Addr in
  if negb (List.length arrayStrIPv6Hextet =? 8)%nat then false
  else
    forallb (fun strHextet =>
               if negb (String.length strHextet =? 4)%nat then false
               else
                 let c1 := substring 0 1 strHextet in
                 let c2 := substring 1 1 strHextet in
                 let c3 := substring 2 1 strHextet in
                 let c4 := substring 3 1 strHextet in
                 is_lower_hex c1 && is_lower_hex c2 &&
                 is_lower_hex c3 && is_lower_hex c4)
            arrayStrIPv6Hextet.

Definition _toIPv4AddrInteger (strIPv4Addr : string) : number :=
  let arrayIPv4Octet := split "." strIPv4Addr in
  num_add (num_add (num_add
    (num_mul (parseInt_at arrayIPv4Octet 0) (Num 16777216))
    (num_mul (parseInt_at arrayIPv4Octet 1) (Num 65536)))
    (num_mul (parseInt_at arrayIPv4Octet 2) (Num 256)))
    (parseInt_at arrayIPv4Octet 3).

Definition _toIPv4AddrString (intIPv4AddrInteger : number) : string :=
  num_toString (band (ushr intIPv4AddrInteger 24) (Num 255)) ++ "." ++
  num_toString (band (ushr intIPv4AddrInteger 16) (Num 255)) ++ "." ++
  num_toString (band (ushr intIPv4AddrInteger 8) (Num 255)) ++ "." ++
  num_toString (band intIPv4AddrInteger (Num 255)).

(** [None] is the SyntaxError of [BigInt]. *)
Definition _toIPv6AddrInteger (strIPv6Addr : string) : option Z :=
  let arrayIPv6Hextet := split ":" strIPv6Addr in
  h0 <- BigInt_0x_at arrayIPv6Hextet 0 ;;
  h1 <- BigInt_0x_at arrayIPv6Hextet 1 ;;
  h2 <- BigInt_0x_at arrayIPv6Hextet 2 ;;
  h3 <- BigInt_0x_at arrayIPv6Hextet 3 ;;
  h4 <- BigInt_0x_at arrayIPv6Hextet 4 ;;
  h5 <- BigInt_0x_at arrayIPv6Hextet 5 ;;
  h6 <- BigInt_0x_at arrayIPv6Hextet 6 ;;
  h7 <- BigInt_0x_at arrayIPv6Hextet 7 ;;
  Some (h0 * 5192296858534827628530496329220096 +
        h1 * 79228162514264337593543950336 +
        h2 * 1208925819614629174706176 +
        h3 * 18446744073709551616 +
        h4 * 281474976710656 +
        h5 * 4294967296 +
        h6 * 65536 +
        h7)%Z.

(** [('000' + (x / d & 0xFFFFn).toString(16)).slice(-4)] *)
Definition hextet (bintIPv6AddrInteger d : Z) : string :=
  slice_last 4 ("000" ++ toString 16 (Z.land (Z.quot bintIPv6AddrInteger d) 65535)).

Definition _toIPv6AddrString (bintIPv6AddrInteger : Z) : string :=
  hextet bintIPv6AddrInteger 5192296858534827628530496329220096 ++ ":" ++
  hextet bintIPv6AddrInteger 79228162514264337593543950336 ++ ":" ++
  hextet bintIPv6AddrInteger 1208925819614629174706176 ++ ":" ++
  hextet bintIPv6AddrInteger 18446744073709551616 ++ ":" ++
  hextet bintIPv6AddrInteger 281474976710656 ++ ":" ++
  hextet bintIPv6AddrInteger 4294967296 ++ ":" ++
  hextet bintIPv6AddrInteger 65536 ++ ":" ++
  hextet bintIPv6AddrInteger 1.

(** ** The two decomposers of the source *)

(** [arraySave.push(format(b) + '/' + i)] *)
Definition push_text (format : Z -> string) (b i : Z) (arraySave : list string)
  : list string :=
  (arraySave ++ [(format b ++ "/" ++ toString 10 i)%string])%list.

(** The text of a subnet. *)
Definition subnet_text (format : Z -> string) (sn : subnet) : string :=
  format (fst sn) ++ "/" ++ toString 10 (snd sn).

Definition format_v4 (b : Z) : string := _toIPv4AddrString (Num b).

(** The depth of recursion given to the decomposers: one more than the
    address width (see [make_fuel_irrelevant]: no larger bound changes any
    result). *)
Definition depth (width : Z) : nat := S (Z.to_nat width).

(** With a [NaN] bound every comparison of the loop is false: no branch is
    entered and the array is left as it is.  The Numbers of the source are
    doubles and the model computes on the integers themselves: the two
    agree while both bounds lie in [0, 2^32), where every sum, quotient and
    product of the loop is an integer below [2^53]; the statements on this
    procedure keep to those bounds. *)
Definition _makeIPv4SubnetFromRange (intStartAddr intEndAddr : number)
           (arraySave : list string) : option (list string) :=
  match intStartAddr, intEndAddr with
  | Num s, Num e =>
      make 32 2147483648 (push_text format_v4) (depth 32) s e arraySave
  | _, _ => Some arraySave
  end.

Definition _makeIPv6SubnetFromRange (bintStartAddr bintEndAddr : Z)
           (arraySave : list string) : option (list string) :=
  make 128 170141183460469231731687303715884105728
       (push_text _toIPv6AddrString) (depth 128)
       bintStartAddr bintEndAddr arraySave.

(** The two address families, to speak of both decomposers at once. *)
Inductive family : Type :=
| IPv4
| IPv6.

Definition width (fam : family) : Z :=
  match fam with
  | IPv4 => 32
  | IPv6 => 128
  end.

(** The segment size the loop starts from. *)
Definition first_segment (fam : family) : Z :=
  match fam with
  | IPv4 => 2147483648
  | IPv6 => 170141183460469231731687303715884105728
  end.

Definition format_addr (fam : family) : Z -> string :=
  match fam with
  | IPv4 => format_v4
  | IPv6 => _toIPv6AddrString
  end.

Definition makeSubnetFromRange (fam : family) (s e : Z) (arraySave : list string)
  : option (list string) :=
  match fam with
  | IPv4 => _makeIPv4SubnetFromRange (Num s) (Num e) arraySave
  | IPv6 => _makeIPv6SubnetFromRange s e arraySave
  end.

(** The procedure of a family with the depth of recursion left open, and
    its traced invocation. *)
Definition makeSubnetFromRange_upto (fam : family) (fuel : nat) (s e : Z)
           (arraySave : list string) : option (list string) :=
  make (width fam) (first_segment fam) (push_text (format_addr fam)) fuel s e arraySave.

Definition makeSubnetFromRange_traced (fam : family) (s e : Z)
           (arraySave : list string) : option (nat * call_log * list string) :=
  make_traced (width fam) (first_segment fam) (push_text (format_addr fam))
              (depth (width fam)) s e arraySave.

(** ** The range objects *)

Inductive exn : Type :=
| IPRangeAddressError
| SyntaxError
| TypeError.

Inductive completion (A : Type) : Type :=
| Normal (a : A)
| Throw (e : exn).
Arguments Normal {A} a.
Arguments Throw {A} e.

(** The fields of [IPRange]; [None] is [undefined]. *)
Record IPRange (num : Type) : Type := mkIPRange {
  _intStartAddr : option num;
  _intEndAddr : option num;
  _arraySubnet : option (list string)
}.
Arguments mkIPRange {num} _ _ _.
Arguments _intStartAddr {num} _.
Arguments _intEndAddr {num} _.
Arguments _arraySubnet {num} _.

(** [new IPv4Range()], [new IPv6Range()] *)
Definition new_IPRange {num : Type} : IPRange num := mkIPRange None None None.

(** [get subnet()] *)
Definition get_subnet {num : Type} (this : IPRange num) : completion (list string) :=
  match _arraySubnet this with
  | None => Throw IPRangeAddressError
  | Some a => Normal a
  end.

(** [strRange.indexOf('-') != -1 ? strRange.split('-') : [strRange, strRange]] *)
Definition range_array (strRange : string) : list string :=
  if contains "-" strRange then split "-" strRange else [strRange; strRange].

Module IPv4Range.

Definition t : Type := IPRange number.

Definition get_iprange (this : t) : completion string :=
  match _intStartAddr this, _intEndAddr this with
  | Some s, Some e => Normal (_toIPv4AddrString s ++ "-" ++ _toIPv4AddrString e)
  | _, _ => Throw IPRangeAddressError
  end.

(** The setter: how it completes and the object it leaves.  [None] when
    the decomposer does not return. *)
Definition set_iprange (strIPv4Range : string) (this : t)
  : option (completion unit * t) :=
  match range_array strIPv4Range with
  | a0 :: a1 :: _ =>
      if negb (_isIPv4Addr a0) || negb (_isIPv4Addr a1)
      then Some (Throw IPRangeAddressError, this)
      else
        let s := _toIPv4AddrInteger a0 in
        let e := _toIPv4AddrInteger a1 in
        let this := mkIPRange (Some s) (Some e) (_arraySubnet this) in
        if num_gtb s e then Some (Throw IPRangeAddressError, this)
        else
          arraySubnet <- _makeIPv4SubnetFromRange s e [] ;;
          Some (Normal tt, mkIPRange (Some s) (Some e) (Some arraySubnet))
  | _ => Some (Throw TypeError, this)
  end.

End IPv4Range.

Module IPv6Range.

Definition t : Type := IPRange Z.

Definition get_iprange (this : t) : completion string :=
  match _intStartAddr this, _intEndAddr this with
  | Some s, Some e => Normal (_toIPv6AddrString s ++ "-" ++ _toIPv6AddrString e)
  | _, _ => Throw IPRangeAddressError
  end.

Definition set_iprange (strIPv6Range : string) (this : t)
  : option (completion unit * t) :=
  match range_array strIPv6Range with
  | a0 :: a1 :: _ =>
      if negb (_isIPv6Addr a0) || negb (_isIPv6Addr a1)
      then Some (Throw IPRangeAddressError, this)
      else
        match _toIPv6AddrInteger a0 with
        | None => Some (Throw SyntaxError, this)
        | Some s =>
            let this1 := mkIPRange (Some s) (_intEndAddr this) (_arraySubnet this) in
            match _toIPv6AddrInteger a1 with
            | None => Some (Throw SyntaxError, this1)
            | Some e =>
                let this2 := mkIPRange (Some s) (Some e) (_arraySubnet this) in
                if (e <? s)%Z then Some (Throw IPRangeAddressError, this2)
                else
                  arraySubnet <- _makeIPv6SubnetFromRange s e [] ;;
                  Some (Normal tt, mkIPRange (Some s) (Some e) (Some arraySubnet))
            end
        end
  | _ => Some (Throw TypeError, this)
  end.

End IPv6Range.

(** A history of an object: the assignments made to it one after the
    other, with the way each completed. *)
Fixpoint assign_all {num : Type}
         (set : string -> IPRange num -> option (completion unit * IPRange num))
         (texts : list string) (this : IPRange num)
  : option (list (completion unit) * IPRange num) :=
  match texts with
  | [] => Some ([], this)
  | text :: texts' =>
      '(c, this') <- set text this ;;
      '(cs, this'') <- assign_all set texts' this' ;;
      Some (c :: cs, this'')
  end.

(** ** The two families at once

    The checks, the setters and the range accessors of the two classes,
    indexed by the family. *)

Definition isAddr (fam : family) : string -> bool :=
  match fam with
  | IPv4 => _isIPv4Addr
  | IPv6 => _isIPv6Addr
  end.

(** The type of the bounds an object stores. *)
Definition num_of (fam : family) : Type :=
  match fam with
  | IPv4 => number
  | IPv6 => Z
  end.

Definition set_iprange_of (fam : family)
  : string -> IPRange (num_of fam) ->
    option (completion unit * IPRange (num_of fam)) :=
  match fam as f
        return string -> IPRange (num_of f) ->
               option (completion unit * IPRange (num_of f)) with
  | IPv4 => IPv4Range.set_iprange
  | IPv6 => IPv6Range.set_iprange
  end.

Definition get_iprange_of (fam : family) : IPRange (num_of fam) -> completion string :=
  match fam as f return IPRange (num_of f) -> completion string with
  | IPv4 => IPv4Range.get_iprange
  | IPv6 => IPv6Range.get_iprange
  end.

Close Scope string_scope.

(** ** The vocabulary of the specification *)

Definition block_size (width : Z) (sn : subnet) : Z := 2 ^ (width - snd sn).

(** The last address of the interval a subnet stands for. *)
Definition last_addr (width : Z) (sn : subnet) : Z :=
  fst sn + block_size width sn - 1.

Definition in_subnet (width a : Z) (sn : subnet) : bool :=
  (fst sn <=? a) && (a <=? last_addr width sn).

Definition aligned (width : Z) (sn : subnet) : Prop :=
  fst sn mod block_size width sn = 0.

(** A CIDR block the policy of the source allows: the prefix length [0] is
    excluded. *)
Definition cidr_block (width : Z) (sn : subnet) : Prop :=
  1 <= snd sn <= width /\ aligned width sn.

(** The blocks of [l] cover exactly the interval from [s] to [e]. *)
Definition exact_cover (width : Z) (l : list subnet) (s e : Z) : Prop :=
  forall a, s <= a <= e <-> exists sn, In sn l /\ in_subnet width a sn = true.

(** [tiles width s e l]: the blocks of [l], in this order, follow each other
    without a gap from [s] to [e]. *)
Inductive tiles (width : Z) : Z -> Z -> list subnet -> Prop :=
| tiles_nil : forall s, tiles width s (s - 1) []
| tiles_cons : forall b p e l,
    1 <= p <= width ->
    b mod 2 ^ (width - p) = 0 ->
    b + 2 ^ (width - p) - 1 <= e ->
    tiles width (b + 2 ^ (width - p)) e l ->
    tiles width b e ((b, p) :: l).

(** The [c]-th aligned block of the given size lies between [s] and [e]. *)
Definition block_fits (size s e c : Z) : Prop :=
  s <= c * size /\ c * size + size - 1 <= e.

(** A block is maximal in the interval from [s] to [e] when the block of
    twice its size around it does not fit, or when its prefix length is 1,
    the shortest the source emits. *)
Definition maximal (width s e : Z) (sn : subnet) : Prop :=
  snd sn = 1 \/
  ~ block_fits (2 ^ (width - snd sn + 1)) s e (fst sn / 2 ^ (width - snd sn + 1)).

(** The run of [n] blocks of prefix length [i] from [b] on. *)
Fixpoint run (width : Z) (n : nat) (i b : Z) : list subnet :=
  match n with
  | O => []
  | S n' => (b, i) :: run width n' i (b + 2 ^ (width - i))
  end.

(** The blocks of [l] partition the interval from [s] to [e]: every
    address of the interval lies in exactly one block, and no block holds
    an address outside. *)
Definition exact_partition (width : Z) (l : list subnet) (s e : Z) : Prop :=
  (forall a, s <= a <= e -> List.length (filter (in_subnet width a) l) = 1%nat) /\
  (forall sn a, In sn l -> in_subnet width a sn = true -> s <= a <= e).

(** What the decomposer is shown to return: the maximal blocks of the
    interval, in order. *)
Definition good (width s e : Z) (l : list subnet) : Prop :=
  tiles width s e l /\ Forall (maximal width s e) l.

(** What one invocation may hand to a recursive call: a strictly smaller
    interval inside its own. *)
Definition smaller_inside (s e : Z) (c : Z * Z) : Prop :=
  s <= fst c /\ fst c <= snd c /\ snd c <= e /\ snd c - fst c < e - s.

(** The number of addresses the blocks of a list hold. *)
Definition total_size (width : Z) (l : list subnet) : Z :=
  fold_right (fun sn acc => block_size width sn + acc) 0 l.

(** The same block in an address space with [d] more leading bits. *)
Definition shift_prefix (d : Z) (sn : subnet) : subnet := (fst sn, snd sn + d).

(** The subnets of [l] that have the prefix length [p]. *)
Definition with_prefix (p : Z) (l : list subnet) : list subnet :=
  filter (fun sn => snd sn =? p) l.

(** ** Address texts, in the words of the specification *)

Definition is_digit (c : ascii) : bool := (48 <=? code c) && (code c <=? 57).

Definition lower_hex_digit (c : ascii) : bool :=
  is_digit c || ((97 <=? code c) && (code c <=? 102)).

Definition upper_hex_letter (c : ascii) : bool :=
  (65 <=? code c) && (code c <=? 70).

Definition hex_digit (c : ascii) : bool := lower_hex_digit c || upper_hex_letter c.

(** An octet in its minimal decimal form: one to three digits, no zero in
    front of another digit, and a value of at most 255. *)
Definition minimal_decimal_octet (o : string) : bool :=
  match o with
  | String c1 EmptyString => is_digit c1
  | String c1 (String c2 EmptyString) =>
      is_digit c1 && negb (code c1 =? 48) && is_digit c2
  | String c1 (String c2 (String c3 EmptyString)) =>
      is_digit c1 && negb (code c1 =? 48) && is_digit c2 && is_digit c3 &&
      (100 * (code c1 - 48) + 10 * (code c2 - 48) + (code c3 - 48) <=? 255)
  | _ => false
  end.

(** A group of exactly four characters, each of the given kind. *)
Definition group_of (kind : ascii -> bool) (g : string) : bool :=
  match g with
  | String c1 (String c2 (String c3 (String c4 EmptyString))) =>
      kind c1 && kind c2 && kind c3 && kind c4
  | _ => false
  end.

(** [n] groups of the given kind, joined by the separator. *)
Definition groups (n : nat) (kind : string -> bool) (sep : string) (s : string)
  : Prop :=
  exists gs, List.length gs = n /\ forallb kind gs = true /\ s = String.concat sep gs.

(** The canonical text of an address: four minimal decimal octets, or
    eight groups of four lowercase hex digits. *)
Definition canonical (fam : family) (s : string) : Prop :=
  match fam with
  | IPv4 => groups 4 minimal_decimal_octet "." s
  | IPv6 => groups 8 (group_of lower_hex_digit) ":" s
  end.

(** Some character of the string is one of the letters A to F. *)
Definition has_upper_hex (s : string) : bool :=
  existsb upper_hex_letter (list_ascii_of_string s).

(** The parser of each family; [None] when the text denotes no integer
    ([NaN], or the SyntaxError of [BigInt]). *)
Definition parse (fam : family) (s : string) : option Z :=
  match fam with
  | IPv4 => match _toIPv4AddrInteger s with
            | Num z => Some z
            | NaN => None
            end
  | IPv6 => _toIPv6AddrInteger s
  end.

(** ** Finite checks

    The octets are finitely many: what the conversions do on them is
    checked by running the conversions on all of them. *)

Definition digit_chars : list ascii := list_ascii_of_string "0123456789".

Definition lower_hex_chars : list ascii := list_ascii_of_string "0123456789abcdef".

Definition strings1 (cs : list ascii) : list string :=
  map (fun c => String c EmptyString) cs.

(** One more character of [cs] in front of the strings of [ss]. *)
Definition extend (cs : list ascii) (ss : list string) : list string :=
  flat_map (fun c => map (String c) ss) cs.

(** The strings of one to three digits. *)
Definition octet_candidates : list string :=
  strings1 digit_chars ++
  extend digit_chars (strings1 digit_chars) ++
  extend digit_chars (extend digit_chars (strings1 digit_chars)).

Fixpoint zrange (lo : Z) (n : nat) : list Z :=
  match n with
  | O => []
  | S n' => lo :: zrange (lo + 1) n'
  end.

(** [('000' + v.toString(16)).slice(-4)] *)
Definition hex4 (v : Z) : string := slice_last 4 ("000" ++ toString 16 v).

Definition octet_text_ok (o : string) : bool :=
  implb (minimal_decimal_octet o)
        (match parseInt o with
         | Num n => (0 <=? n) && (n <=? 255) && String.eqb (toString 10 n) o &&
                    negb (contains "." o) && negb (contains "-" o)
         | NaN => false
         end).

Definition octet_value_ok (n : Z) : bool :=
  (match parseInt (toString 10 n) with
   | Num m => m =? n
   | NaN => false
   end) &&
  negb (contains "." (toString 10 n)) && minimal_decimal_octet (toString 10 n).

(** * Checks on the examples of the source *)

Section Examples.
Local Open Scope string_scope.

Example subnets_192_168_0_1_to_100 :
  subnets 32 33 3232235521 3232235620 =
  Some [(3232235521, 32); (3232235522, 31); (3232235524, 30); (3232235528, 29);
        (3232235536, 28); (3232235552, 27); (3232235584, 27); (3232235616, 30);
        (3232235620, 32)]%Z.
Proof. vm_compute. reflexivity. Qed.

Example set_192_168_0_1_to_100 :
  IPv4Range.set_iprange "192.168.0.1-192.168.0.100" new_IPRange =
  Some (Normal tt,
        mkIPRange (Some (Num 3232235521)) (Some (Num 3232235620))
          (Some ["192.168.0.1/32"; "192.168.0.2/31"; "192.168.0.4/30";
                 "192.168.0.8/29"; "192.168.0.16/28"; "192.168.0.32/27";
                 "192.168.0.64/27"; "192.168.0.96/30"; "192.168.0.100/32"])).
Proof. vm_compute. reflexivity. Qed.

Example set_2001_db8_1_to_64 :
  IPv6Range.set_iprange
    "2001:0db8:0000:0000:0000:0000:0000:0001-2001:0db8:0000:0000:0000:0000:0000:0064"
    new_IPRange =
  Some (Normal tt,
        mkIPRange (Some 42540766411282592856903984951653826561%Z)
                  (Some 42540766411282592856903984951653826660%Z)
          (Some ["2001:0db8:0000:0000:0000:0000:0000:0001/128";
                 "2001:0db8:0000:0000:0000:0000:0000:0002/127";
                 "2001:0db8:0000:0000:0000:0000:0000:0004/126";
                 "2001:0db8:0000:0000:0000:0000:0000:0008/125";
                 "2001:0db8:0000:0000:0000:0000:0000:0010/124";
                 "2001:0db8:0000:0000:0000:0000:0000:0020/123";
                 "2001:0db8:0000:0000:0000:0000:0000:0040/123";
                 "2001:0db8:0000:0000:0000:0000:0000:0060/126";
                 "2001:0db8:0000:0000:0000:0000:0000:0064/128"])).
Proof. vm_compute. reflexivity. Qed.

Example isIPv4Addr_examples :
  _isIPv4Addr "192.168.0.1" = true /\ _isIPv4Addr "192.168.1" = false /\
  _isIPv4Addr "192.168.0.256" = false /\ _isIPv4Addr "192.168.0.-1" = false.
Proof. vm_compute. auto. Qed.

Example isIPv6Addr_examples :
  _isIPv6Addr "2001:0db8:0000:0000:0000:0000:0000:0001" = true /\
  _isIPv6Addr "2001:0db8:0000:0000:0000:0000:0001" = false /\
  _isIPv6Addr "2001:0db8:0000:0000:0000:0000:0000:001" = false /\
  _isIPv6Addr "2001:0db8:0000:0000:0000:0000:0000:000g" = false.
Proof. vm_compute. auto. Qed.

End Examples.

(** * Arithmetic of aligned blocks *)

Section Rounding.
Variables seg : Z.
Hypothesis seg_pos : 0 < seg.

Lemma round_up_bounds (s : Z) :
  0 <= s ->
  let bs := Z.quot (s + seg - 1) seg * seg in
  s <= bs < s + seg /\ bs = (s + seg - 1) / seg * seg.
Proof.
  intros Hs bs. subst bs.
  rewrite Z.quot_div_nonneg by lia.
  pose proof (Z.div_mod (s + seg - 1) seg ltac:(lia)) as E.
  pose proof (Z.mod_pos_bound (s + seg - 1) seg seg_pos) as B.
  split; [nia | reflexivity].
Qed.

Lemma round_down_bounds (e : Z) :
  0 <= e + 1 ->
  let be := Z.quot (e + 1) seg * seg - 1 in
  e - seg < be <= e /\ be + 1 = (e + 1) / seg * seg.
Proof.
  intros He be. subst be.
  rewrite Z.quot_div_nonneg by lia.
  pose proof (Z.div_mod (e + 1) seg ltac:(lia)) as E.
  pose proof (Z.mod_pos_bound (e + 1) seg seg_pos) as B.
  split; [nia | lia].
Qed.

(** An aligned block inside the interval lies inside the aligned region. *)
Lemma fits_between (s e c : Z) :
  block_fits seg s e c ->
  (s + seg - 1) / seg * seg <= c * seg /\ (c + 1) * seg <= (e + 1) / seg * seg.
Proof.
  intros [H1 H2]. split.
  - assert ((s + seg - 1) / seg < c + 1); [| nia].
    apply Z.div_lt_upper_bound; [lia|]. nia.
  - assert (c + 1 <= (e + 1) / seg); [| nia].
    apply Z.div_le_lower_bound; [lia|]. nia.
Qed.

End Rounding.

Section Blocks.
Variable W : Z.
Hypothesis W_pos : 1 <= W.

Lemma seg_pos (i : Z) : i <= W -> 0 < 2 ^ (W - i).
Proof. intros. apply Z.pow_pos_nonneg; lia. Qed.

Lemma seg_halve (i : Z) : i < W -> Z.quot (2 ^ (W - i)) 2 = 2 ^ (W - (i + 1)).
Proof.
  intros. replace (W - i) with (W - (i + 1) + 1) by lia.
  rewrite Z.pow_add_r by lia. change (2 ^ 1) with 2.
  apply Z.quot_mul. lia.
Qed.

(** A smaller power of two divides a larger one. *)
Lemma pow2_divides (a b : Z) :
  0 <= a <= b -> exists k, 0 < k /\ 2 ^ b = k * 2 ^ a.
Proof.
  intros H. exists (2 ^ (b - a)). split.
  - apply Z.pow_pos_nonneg; lia.
  - rewrite <- Z.pow_add_r by lia. f_equal. lia.
Qed.

Lemma pow2_lt_inv (a b : Z) : 0 <= a -> 0 <= b -> 2 ^ a < 2 ^ b -> a < b.
Proof. intros Ha Hb H. apply (Z.pow_lt_mono_r_iff 2); lia. Qed.

Lemma multiple_of_smaller (m a b : Z) :
  0 <= a <= b -> m mod 2 ^ b = 0 -> exists k, m = k * 2 ^ a.
Proof.
  intros Hab Hm.
  destruct (pow2_divides a b Hab) as [k [Hk E]].
  apply Z.mod_divide in Hm; [| apply Z.pow_nonzero; lia].
  destruct Hm as [q Hq]. exists (q * k). rewrite Hq, E. ring.
Qed.

(** ** Tilings *)

Lemma tiles_le s e l : tiles W s e l -> s <= e + 1.
Proof.
  induction 1 as [s | b p e l Hp Ha Hb _ IH]; lia.
Qed.

Lemma tiles_app s m e l1 l2 :
  tiles W s m l1 -> tiles W (m + 1) e l2 -> tiles W s e (l1 ++ l2).
Proof.
  intros H1. revert e l2.
  induction H1 as [s | b p m l Hp Ha Hb _ IH]; intros e l2 H2.
  - replace (s - 1 + 1) with s in H2 by lia. exact H2.
  - simpl. constructor; auto.
    apply tiles_le in H2. lia.
Qed.

Lemma tiles_In s e l b p :
  tiles W s e l -> In (b, p) l ->
  s <= b /\ b + 2 ^ (W - p) - 1 <= e /\ 1 <= p <= W /\ b mod 2 ^ (W - p) = 0.
Proof.
  induction 1 as [s | b' p' e l Hp Ha Hb Ht IH]; intros Hin.
  - destruct Hin.
  - destruct Hin as [E | Hin].
    + inversion E; subst. repeat split; try lia; exact Ha.
    + specialize (IH Hin). pose proof (seg_pos p' ltac:(lia)). lia.
Qed.

Lemma run_prefix n i b sn : In sn (run W n i b) -> snd sn = i.
Proof.
  revert b. induction n as [|n IH]; simpl; intros b H.
  - destruct H.
  - destruct H as [E | H]; [subst; reflexivity | eauto].
Qed.

Lemma tiles_run n i b :
  1 <= i <= W -> b mod 2 ^ (W - i) = 0 ->
  tiles W b (b + Z.of_nat n * 2 ^ (W - i) - 1) (run W n i b).
Proof.
  intros Hi. revert b. induction n as [|n IH]; intros b Hb.
  - simpl. replace (b + 0 - 1) with (b - 1) by lia. constructor.
  - simpl run. pose proof (seg_pos i ltac:(lia)) as Hs.
    constructor; auto; [nia|].
    replace (b + Z.of_nat (S n) * 2 ^ (W - i) - 1)
      with (b + 2 ^ (W - i) + Z.of_nat n * 2 ^ (W - i) - 1) by lia.
    apply IH.
    rewrite <- Z.add_mod_idemp_l, Hb by lia. simpl.
    apply Z.mod_same. lia.
Qed.

(** ** Maximal blocks *)

(** A block below an aligned boundary [m], closer to it than one segment:
    what it is maximal in does not depend on what lies above [m]. *)
Lemma maximal_lower s m e b p i :
  1 <= p <= W -> 1 <= i <= W ->
  m mod 2 ^ (W - i) = 0 -> m - s < 2 ^ (W - i) ->
  s <= b -> b + 2 ^ (W - p) <= m ->
  maximal W s (m - 1) (b, p) -> maximal W s e (b, p).
Proof.
  intros Hp Hi Hm Hclose Hsb Hbm [H1 | Hn]; [left; exact H1 | right].
  simpl in *. intros [Hf1 Hf2]. apply Hn. split; [exact Hf1 |].
  assert (W - p < W - i) as Hlt.
  { apply pow2_lt_inv; lia. }
  destruct (multiple_of_smaller m (W - p + 1) (W - i) ltac:(lia) Hm) as [k Hk].
  pose proof (seg_pos (p - 1) ltac:(lia)) as Hq.
  replace (W - (p - 1)) with (W - p + 1) in Hq by lia.
  set (Q2 := 2 ^ (W - p + 1)) in *.
  pose proof (Z.div_mod b Q2 ltac:(lia)) as E.
  pose proof (Z.mod_pos_bound b Q2 Hq) as B.
  pose proof (seg_pos p ltac:(lia)) as Hq1.
  assert (b / Q2 < k) by nia.
  nia.
Qed.

Lemma maximal_upper s m e b p i :
  1 <= p <= W -> 1 <= i <= W ->
  m mod 2 ^ (W - i) = 0 -> e - m + 1 < 2 ^ (W - i) ->
  s <= m -> m <= b -> b + 2 ^ (W - p) - 1 <= e ->
  maximal W m e (b, p) -> maximal W s e (b, p).
Proof.
  intros Hp Hi Hm Hclose Hsm Hmb Hbe [H1 | Hn]; [left; exact H1 | right].
  simpl in *. intros [Hf1 Hf2]. apply Hn. split; [| exact Hf2].
  assert (W - p < W - i) as Hlt.
  { apply pow2_lt_inv; lia. }
  destruct (multiple_of_smaller m (W - p + 1) (W - i) ltac:(lia) Hm) as [k Hk].
  pose proof (seg_pos (p - 1) ltac:(lia)) as Hq.
  replace (W - (p - 1)) with (W - p + 1) in Hq by lia.
  set (Q2 := 2 ^ (W - p + 1)) in *.
  pose proof (Z.div_mod b Q2 ltac:(lia)) as E.
  pose proof (Z.mod_pos_bound b Q2 Hq) as B.
  assert (k < b / Q2 + 1) by nia.
  nia.
Qed.

End Blocks.

(** * The decomposer computes the maximal blocks of its interval *)

Section Loop.
Variable W : Z.
Hypothesis W_pos : 1 <= W.
Context {A : Type}.
Variable render : subnet -> A.

Lemma emit_segments_run n i x be save (log : call_log) :
  i <= W -> be + 1 - x = Z.of_nat n * 2 ^ (W - i) ->
  emit_segments (traced_push (push_render render)) n i (2 ^ (W - i)) x be
                (save, log) =
  Some (be + 1, (save ++ map render (run W n i x), log)).
Proof.
  intros Hi. pose proof (seg_pos W i Hi) as Hs.
  revert x save. induction n as [|n IH]; intros x save E.
  - simpl. destruct (Z.leb_spec (x + 2 ^ (W - i) - 1) be); [lia|].
    rewrite app_nil_r. do 2 f_equal. lia.
  - cbn [emit_segments]. destruct (Z.leb_spec (x + 2 ^ (W - i) - 1) be); [|nia].
    change (traced_push (push_render render) x i (save, log))
      with (push_render render x i save, log).
    rewrite IH by nia. unfold push_render. simpl.
    rewrite <- app_assoc. reflexivity.
Qed.

Section WithSelf.
Variable self : Z -> Z -> list A -> option (list A).

Lemma for_loop_idle n i e seg (sl : list A * call_log) :
  1 <= i -> Z.of_nat n = W - i + 1 -> (i <= W -> seg = 2 ^ (W - i)) ->
  0 <= e + 1 ->
  exists seg',
    for_loop W (traced_push (push_render render)) (traced self) n i
             (LoopState (e + 1) e seg sl) =
    Some (n, LoopState (e + 1) e seg' sl).
Proof.
  revert i seg. induction n as [|n IH]; intros i seg Hi Hn Hseg He.
  - exists seg. simpl. destruct (Z.leb_spec i W); [lia | reflexivity].
  - cbn [for_loop]. destruct (Z.leb_spec i W) as [HiW|]; [|lia].
    specialize (Hseg HiW). subst seg.
    pose proof (seg_pos W i HiW) as Hs.
    unfold loop_body. cbn [intStartAddr intEndAddr intSegSize arraySave].
    destruct (round_up_bounds _ Hs (e + 1) ltac:(lia)) as [Hu _].
    destruct (round_down_bounds _ Hs e He) as [Hd _].
    match goal with |- context [if ?a <=? ?b then _ else _] =>
      destruct (Z.leb_spec a b) as [Hbad|_]; [lia|] end.
    cbn [obind intStartAddr intEndAddr intSegSize arraySave].
    destruct (IH (i + 1) (Z.quot (2 ^ (W - i)) 2)) as [seg' E]; try lia.
    { intros. apply seg_halve. lia. }
    exists seg'. rewrite E. reflexivity.
Qed.

(** The recursive calls are assumed correct on the intervals shorter
    than [2^f]. *)
Variable f : Z.
Hypothesis f_nonneg : 0 <= f.
Hypothesis self_good :
  forall s e save, 0 <= s <= e -> e < 2 ^ W -> e - s + 1 < 2 ^ f ->
    exists l, self s e save = Some (save ++ map render l) /\ good W s e l.

Lemma lower_leftover i s e bs save log :
  1 <= i <= W -> 0 <= s -> e < 2 ^ W ->
  s <= bs -> bs - s < 2 ^ (W - i) -> bs mod 2 ^ (W - i) = 0 -> bs <= e ->
  2 ^ (W - i) <= 2 ^ f ->
  exists l calls,
    (if s <? bs then traced self s (bs - 1) (save, log) else Some (save, log)) =
    Some (save ++ map render l, log ++ calls) /\
    tiles W s (bs - 1) l /\ Forall (maximal W s e) l /\
    Forall (smaller_inside s e) calls.
Proof.
  intros Hi Hs He Hsb Hclose Hmod Hbe Hf.
  destruct (Z.ltb_spec s bs) as [Hlt | Hge].
  - destruct (self_good s (bs - 1) save) as [l [E [Ht Hm]]]; try lia.
    exists l, [(s, bs - 1)]. unfold traced. cbn [fst snd]. rewrite E.
    split; [reflexivity|]. split; [exact Ht|]. split.
    + apply Forall_forall. intros [b p] Hin.
      destruct (tiles_In _ _ _ _ _ _ Ht Hin) as [H1 [H2 [H3 H4]]].
      apply maximal_lower with (m := bs) (i := i); try lia; try assumption.
      rewrite Forall_forall in Hm. apply Hm. exact Hin.
    + constructor; [|constructor]. unfold smaller_inside. simpl. lia.
  - exists [], []. simpl. rewrite !app_nil_r.
    split; [reflexivity|]. replace bs with s by lia.
    repeat split; constructor.
Qed.

Lemma upper_leftover i s e be x seg save log :
  1 <= i <= W -> 0 <= s -> e < 2 ^ W ->
  be <= e -> e - be < 2 ^ (W - i) -> (be + 1) mod 2 ^ (W - i) = 0 -> s <= be ->
  2 ^ (W - i) <= 2 ^ f ->
  exists l calls,
    (if be <? e
     then save3 <- traced self (be + 1) e (save, log) ;;
          Some (LoopState x be seg save3)
     else Some (LoopState x e seg (save, log))) =
    Some (LoopState x be seg (save ++ map render l, log ++ calls)) /\
    tiles W (be + 1) e l /\ Forall (maximal W s e) l /\
    Forall (smaller_inside s e) calls.
Proof.
  intros Hi Hs He Hbe Hclose Hmod Hsb Hf.
  destruct (Z.ltb_spec be e) as [Hlt | Hge].
  - destruct (self_good (be + 1) e save) as [l [E [Ht Hm]]]; try lia.
    exists l, [(be + 1, e)]. unfold traced. cbn [fst snd]. rewrite E.
    split; [reflexivity|]. split; [exact Ht|]. split.
    + apply Forall_forall. intros [b p] Hin.
      destruct (tiles_In _ _ _ _ _ _ Ht Hin) as [H1 [H2 [H3 H4]]].
      apply maximal_upper with (m := be + 1) (i := i); try lia; try assumption.
      rewrite Forall_forall in Hm. apply Hm. exact Hin.
    + constructor; [|constructor]. unfold smaller_inside. simpl. lia.
  - exists [], []. simpl. rewrite !app_nil_r.
    replace e with be by lia.
    split; [reflexivity|].
    replace (be + 1) with (be + 1 - 1 + 1) at 1 by lia.
    replace (tiles W (be + 1 - 1 + 1) be []) with (tiles W (be + 1) (be + 1 - 1) [])
      by (f_equal; lia).
    repeat split; constructor.
Qed.

(** The loop, as long as no block of the sizes tried so far fits: at
    the first size of which a block fits it emits the run of such
    blocks between the two leftovers, and the iterations that follow
    find an empty interval. *)
Lemma for_loop_search n i s e save log :
  1 <= i <= W -> Z.of_nat n = W - i + 1 ->
  0 <= s <= e -> e < 2 ^ W -> e - s + 1 < 2 ^ (f + 1) ->
  (i = 1 \/ forall c, ~ block_fits (2 ^ (W - i + 1)) s e c) ->
  exists l calls st,
    for_loop W (traced_push (push_render render)) (traced self) n i
             (LoopState s e (2 ^ (W - i)) (save, log)) = Some (n, st) /\
    arraySave st = (save ++ map render l, log ++ calls) /\
    good W s e l /\ Forall (smaller_inside s e) calls.
Proof.
  revert i. induction n as [|n IH]; intros i Hi Hn Hse He Hlen Hinv; [lia|].
  cbn [for_loop]. destruct (Z.leb_spec i W) as [HiW|]; [|lia].
  pose proof (seg_pos W i HiW) as Hs.
  unfold loop_body. cbn [intStartAddr intEndAddr intSegSize arraySave].
  destruct (round_up_bounds _ Hs s ltac:(lia)) as [Hu Eu].
  destruct (round_down_bounds _ Hs e ltac:(lia)) as [Hd Ed].
  set (seg := 2 ^ (W - i)) in *.
  set (bs := Z.quot (s + seg - 1) seg * seg) in *.
  set (be := Z.quot (e + 1) seg * seg - 1) in *.
  destruct (Z.leb_spec bs be) as [Hfit | Hnofit].
  - (* a block of this size fits *)
    set (t := (e + 1) / seg - (s + seg - 1) / seg).
    assert (be + 1 - bs = t * seg) as Et by (unfold t; lia).
    assert (1 <= t) as Ht by nia.
    assert (bs mod seg = 0) as Mbs by (rewrite Eu; apply Z.mod_mul; lia).
    assert ((be + 1) mod seg = 0) as Mbe by (rewrite Ed; apply Z.mod_mul; lia).
    assert (seg <= 2 ^ f) as Hf.
    { assert (W - i < f + 1) by (apply pow2_lt_inv; fold seg; nia).
      apply Z.pow_le_mono_r; lia. }
    destruct (lower_leftover i s e bs save log) as [l1 [c1 [E1 [T1 [M1 C1]]]]];
      try lia; try assumption.
    rewrite E1. cbn [obind].
    rewrite Et, Z.div_mul by lia.
    unfold seg at 1 2. rewrite emit_segments_run by (fold seg; lia). fold seg.
    cbn [obind].
    destruct (upper_leftover i s e be (be + 1) seg
                (save ++ map render l1 ++ map render (run W (Z.to_nat t) i bs))
                (log ++ c1))
      as [l3 [c3 [E3 [T3 [M3 C3]]]]]; try lia; try assumption.
    rewrite <- app_assoc.
    rewrite E3. cbn [obind intStartAddr intEndAddr intSegSize arraySave].
    destruct (for_loop_idle n (i + 1) be (Z.quot seg 2)
                (save ++ map render l1 ++ map render (run W (Z.to_nat t) i bs)
                      ++ map render l3, (log ++ c1) ++ c3))
      as [seg' E]; try lia.
    { intros. apply seg_halve. lia. }
    rewrite <- !app_assoc in E3 |- *.
    rewrite <- !app_assoc in E. rewrite E. cbn [obind].
    exists (l1 ++ run W (Z.to_nat t) i bs ++ l3), (c1 ++ c3). eexists.
    split; [reflexivity|]. cbn [arraySave].
    split; [rewrite !map_app; reflexivity|].
    split; [split|].
    + apply tiles_app with (m := bs - 1); [exact T1|].
      replace (bs - 1 + 1) with bs by lia.
      apply tiles_app with (m := be); [|exact T3].
      replace be with (bs + Z.of_nat (Z.to_nat t) * 2 ^ (W - i) - 1)
        by (rewrite Z2Nat.id by lia; fold seg; lia).
      apply tiles_run; [lia | exact Mbs].
    + apply Forall_app. split; [exact M1|].
      apply Forall_app. split; [|exact M3].
      apply Forall_forall. intros sn Hin.
      apply run_prefix in Hin. unfold maximal. rewrite Hin.
      destruct Hinv as [-> | Hinv]; [left; reflexivity | right; apply Hinv].
    + apply Forall_app. split; assumption.
  - (* no block of this size fits: halve the segment *)
    cbn [obind intStartAddr intEndAddr intSegSize arraySave].
    assert (i < W) as HltW.
    { destruct (Z.eq_dec i W) as [->|]; [|lia].
      unfold seg in *. replace (W - W) with 0 in * by lia.
      change (2 ^ 0) with 1 in *. lia. }
    unfold seg at 1. rewrite seg_halve by lia.
    destruct (IH (i + 1)) as [l [calls [st [E [Hsave [Hgood Hcalls]]]]]];
      try lia.
    { right. intros c Hc. replace (W - (i + 1) + 1) with (W - i) in Hc by lia.
      apply fits_between in Hc; [|exact Hs]. fold seg in Hc. lia. }
    rewrite E. cbn [obind].
    exists l, calls, st. auto.
Qed.

End WithSelf.
End Loop.

(** * The record of calls does not change what the procedure computes *)

Section Erasure.
Context {Store : Type}.
Variable W : Z.
Variable seg0 : Z.
Variable push : Z -> Z -> Store -> Store.


Lemma emit_segments_traced n i seg x be sv (log : call_log) :
  emit_segments (traced_push push) n i seg x be (sv, log) =
  match emit_segments push n i seg x be sv with
  | Some (x', sv') => Some (x', (sv', log))
  | None => None
  end.
Proof.
  revert x sv. induction n as [|n IH]; intros x sv; cbn [emit_segments].
  - destruct (x + seg - 1 <=? be); reflexivity.
  - destruct (x + seg - 1 <=? be); [|reflexivity].
    apply IH.
Qed.

Section WithSelf.
Variable self : Z -> Z -> Store -> option Store.

Lemma loop_body_traced i st log :
  match loop_body push self i st with
  | Some st' =>
      exists log', loop_body (traced_push push) (traced self) i (with_log log st) =
                   Some (with_log log' st')
  | None => loop_body (traced_push push) (traced self) i (with_log log st) = None
  end.
Proof.
  destruct st as [s e seg sv].
  unfold loop_body, with_log.
  cbn [intStartAddr intEndAddr intSegSize arraySave].
  set (bs := Z.quot (s + seg - 1) seg * seg).
  set (be := Z.quot (e + 1) seg * seg - 1).
  destruct (bs <=? be); [| cbn; eexists; reflexivity].
  assert (exists log1,
    (if s <? bs then traced self s (bs - 1) (sv, log) else Some (sv, log)) =
    match (if s <? bs then self s (bs - 1) sv else Some sv) with
    | Some sv1 => Some (sv1, log1)
    | None => None
    end) as [log1 E1].
  { destruct (s <? bs).
    - exists (log ++ [(s, bs - 1)]). unfold traced. cbn [fst snd].
      destruct (self s (bs - 1) sv); reflexivity.
    - exists log. reflexivity. }
  rewrite E1. clear E1.
  destruct (if s <? bs then self s (bs - 1) sv else Some sv) as [sv1|];
    [| reflexivity].
  cbn [obind]. rewrite emit_segments_traced.
  destruct (emit_segments push _ i seg bs be sv1) as [[x sv2]|]; [| reflexivity].
  cbn [obind]. destruct (be <? e).
  - unfold traced. cbn [fst snd].
    destruct (self (be + 1) e sv2) as [sv3|]; [| reflexivity].
    cbn. eexists. reflexivity.
  - cbn. eexists. reflexivity.
Qed.

Lemma for_loop_traced n i st log :
  match for_loop W push self n i st with
  | Some (k, st') =>
      exists log', for_loop W (traced_push push) (traced self) n i (with_log log st) =
                   Some (k, with_log log' st')
  | None => for_loop W (traced_push push) (traced self) n i (with_log log st) = None
  end.
Proof.
  revert i st log. induction n as [|n IH]; intros i st log; cbn [for_loop].
  - destruct (i <=? W); [reflexivity | eexists; reflexivity].
  - destruct (i <=? W); [| eexists; reflexivity].
    pose proof (loop_body_traced i st log) as Hb.
    destruct (loop_body push self i st) as [st1|].
    + destruct Hb as [log1 ->]. cbn [obind].
      specialize (IH (i + 1) st1 log1).
      destruct (for_loop W push self n (i + 1) st1) as [[k st2]|].
      * destruct IH as [log2 ->]. cbn. eexists. reflexivity.
      * rewrite IH. reflexivity.
    + rewrite Hb. reflexivity.
Qed.

(** The recursive calls enter the loop only through their results: a
    procedure that returns whatever [self] returns gives the same loop. *)
Variable self2 : Z -> Z -> Store -> option Store.
Hypothesis self_le :
  forall s e sv r, self s e sv = Some r -> self2 s e sv = Some r.

Lemma loop_body_mono i st r :
  loop_body push self i st = Some r -> loop_body push self2 i st = Some r.
Proof.
  unfold loop_body.
  set (bs := Z.quot (intStartAddr st + intSegSize st - 1) (intSegSize st)
             * intSegSize st).
  set (be := Z.quot (intEndAddr st + 1) (intSegSize st) * intSegSize st - 1).
  destruct (bs <=? be); [| auto].
  destruct (intStartAddr st <? bs).
  - destruct (self (intStartAddr st) (bs - 1) (arraySave st)) as [sv1|] eqn:E1;
      [| discriminate].
    rewrite (self_le _ _ _ _ E1). cbn [obind].
    destruct (emit_segments push _ i _ bs be sv1) as [[x sv2]|]; [| auto].
    cbn [obind]. destruct (be <? intEndAddr st); [| auto].
    destruct (self (be + 1) (intEndAddr st) sv2) as [sv3|] eqn:E3;
      [| discriminate].
    rewrite (self_le _ _ _ _ E3). auto.
  - cbn [obind].
    destruct (emit_segments push _ i _ bs be (arraySave st)) as [[x sv2]|]; [| auto].
    cbn [obind]. destruct (be <? intEndAddr st); [| auto].
    destruct (self (be + 1) (intEndAddr st) sv2) as [sv3|] eqn:E3;
      [| discriminate].
    rewrite (self_le _ _ _ _ E3). auto.
Qed.

Lemma for_loop_mono n i st r :
  for_loop W push self n i st = Some r -> for_loop W push self2 n i st = Some r.
Proof.
  revert i st r. induction n as [|n IH]; intros i st r; cbn [for_loop].
  - auto.
  - destruct (i <=? W); [| auto].
    destruct (loop_body push self i st) as [st1|] eqn:E1; [| discriminate].
    rewrite (loop_body_mono _ _ _ E1). cbn [obind].
    destruct (for_loop W push self n (i + 1) st1) as [[k st2]|] eqn:E2;
      [| discriminate].
    rewrite (IH _ _ _ E2). auto.
Qed.

End WithSelf.

Lemma make_traced_erase fuel s e sv :
  make W seg0 push fuel s e sv =
  match make_traced W seg0 push fuel s e sv with
  | Some (_, _, r) => Some r
  | None => None
  end.
Proof.
  destruct fuel as [|fuel]; [reflexivity|].
  cbn [make make_traced].
  pose proof (for_loop_traced (make W seg0 push fuel) (Z.to_nat W) 1
                (LoopState s e seg0 sv) []) as H.
  unfold with_log in H. cbn [intStartAddr intEndAddr intSegSize arraySave] in H.
  destruct (for_loop W push (make W seg0 push fuel) (Z.to_nat W) 1
              (LoopState s e seg0 sv)) as [[k [s' e' seg' sv']]|].
  - destruct H as [log' H]. unfold call_log in *. rewrite H. reflexivity.
  - unfold call_log in *. rewrite H. reflexivity.
Qed.

Lemma make_S fuel s e sv :
  make W seg0 push (S fuel) s e sv =
  ('(_, LoopState _ _ _ save) <-
     for_loop W push (make W seg0 push fuel) (Z.to_nat W) 1
              (LoopState s e seg0 sv) ;;
   Some save).
Proof. reflexivity. Qed.

Lemma make_mono fuel s e sv r :
  make W seg0 push fuel s e sv = Some r ->
  make W seg0 push (S fuel) s e sv = Some r.
Proof.
  revert s e sv r. induction fuel as [|fuel IH]; intros s e sv r; [discriminate|].
  intros H. rewrite make_S in H |- *.
  destruct (for_loop W push (make W seg0 push fuel) (Z.to_nat W) 1
              (LoopState s e seg0 sv)) as [[k st]|] eqn:E; [| discriminate].
  rewrite (for_loop_mono _ _ IH _ _ _ _ E). exact H.
Qed.

Lemma make_mono_le fuel fuel' s e sv r :
  (fuel <= fuel')%nat ->
  make W seg0 push fuel s e sv = Some r ->
  make W seg0 push fuel' s e sv = Some r.
Proof.
  induction 1 as [|m _ IH]; intros H; [exact H|].
  apply make_mono. apply IH. exact H.
Qed.

End Erasure.

(** * Correctness of the procedure *)

Section Make.
Variable W : Z.
Hypothesis W_pos : 1 <= W.
Context {A : Type}.
Variable render : subnet -> A.

Lemma make_traced_good fuel s e save :
  0 <= s <= e -> e < 2 ^ W -> e - s + 1 < 2 ^ Z.of_nat fuel ->
  exists l calls,
    make_traced W (2 ^ (W - 1)) (push_render render) fuel s e save =
    Some (Z.to_nat W, calls, save ++ map render l) /\
    good W s e l /\ Forall (smaller_inside s e) calls.
Proof.
  revert s e save. induction fuel as [|fuel IH]; intros s e save Hse He Hlen.
  - simpl in Hlen. lia.
  - cbn [make_traced].
    destruct (for_loop_search W W_pos render
                (make W (2 ^ (W - 1)) (push_render render) fuel)
                (Z.of_nat fuel) ltac:(lia)) with
      (n := Z.to_nat W) (i := 1) (s := s) (e := e) (save := save) (log := @nil (Z * Z))
      as [l [calls [st [E [Hsave [Hgood Hcalls]]]]]]; try lia.
    + intros s' e' save' Hse' He' Hlen'.
      destruct (IH s' e' save' Hse' He' Hlen') as [l [calls [E [Hg _]]]].
      exists l. split; [| exact Hg].
      rewrite make_traced_erase. rewrite E. reflexivity.
    + unfold call_log in *. rewrite E. cbn [obind].
      destruct st as [s' e' seg' sl]. cbn [arraySave] in Hsave. subst sl.
      cbn [fst snd]. exists l, calls. auto.
Qed.

Lemma make_good fuel s e save :
  0 <= s <= e -> e < 2 ^ W -> e - s + 1 < 2 ^ Z.of_nat fuel ->
  exists l, make W (2 ^ (W - 1)) (push_render render) fuel s e save =
            Some (save ++ map render l) /\
            good W s e l.
Proof.
  intros Hse He Hlen.
  destruct (make_traced_good fuel s e save Hse He Hlen) as [l [calls [E [Hg _]]]].
  exists l. split; [| exact Hg].
  rewrite make_traced_erase, E. reflexivity.
Qed.

Lemma depth_enough s e :
  0 <= s <= e -> e < 2 ^ W -> e - s + 1 < 2 ^ Z.of_nat (depth W).
Proof.
  intros Hse He. unfold depth. rewrite Nat2Z.inj_succ, Z2Nat.id by lia.
  rewrite Z.pow_succ_r by lia. lia.
Qed.

(** No depth beyond [depth W] changes the result. *)
Lemma make_fuel_irrelevant fuel s e save :
  0 <= s <= e -> e < 2 ^ W -> (depth W <= fuel)%nat ->
  make W (2 ^ (W - 1)) (push_render render) fuel s e save =
  make W (2 ^ (W - 1)) (push_render render) (depth W) s e save.
Proof.
  intros Hse He Hfuel.
  destruct (make_good (depth W) s e save Hse He (depth_enough s e Hse He))
    as [l [E _]].
  rewrite E. apply make_mono_le with (fuel := depth W); assumption.
Qed.

End Make.

(** * What a tiling by maximal blocks gives *)

Section Properties.
Variable W : Z.
Hypothesis W_pos : 1 <= W.

Lemma tiles_none_below s e l a :
  tiles W s e l -> a < s -> filter (in_subnet W a) l = [].
Proof.
  induction 1 as [s | b p e l Hp Ha Hb _ IH]; intros Hlt; [reflexivity|].
  pose proof (seg_pos W p ltac:(lia)) as Hq.
  simpl. unfold in_subnet at 1. simpl.
  destruct (Z.leb_spec b a); [lia|]. simpl. apply IH. lia.
Qed.

Lemma tiles_partition s e l : tiles W s e l -> exact_partition W l s e.
Proof.
  intros Ht. split.
  - induction Ht as [s | b p e l Hp Ha Hb Ht IH]; intros a Hin; [lia|].
    pose proof (seg_pos W p ltac:(lia)) as Hq.
    simpl. unfold in_subnet at 1, last_addr, block_size. simpl.
    destruct (Z.leb_spec b a); [|lia]. simpl.
    destruct (Z.leb_spec a (b + 2 ^ (W - p) - 1)).
    + simpl. rewrite (tiles_none_below _ _ _ a Ht) by lia. reflexivity.
    + apply IH. lia.
  - intros [b p] a Hin Ha.
    destruct (tiles_In _ _ _ _ _ _ Ht Hin) as [H1 [H2 _]].
    unfold in_subnet, last_addr, block_size in Ha. simpl in Ha.
    apply andb_true_iff in Ha. destruct Ha as [Ha1 Ha2].
    apply Z.leb_le in Ha1, Ha2. lia.
Qed.

Lemma tiles_sorted s e l : tiles W s e l -> StronglySorted Z.lt (map fst l).
Proof.
  induction 1 as [s | b p e l Hp Ha Hb Ht IH]; simpl; constructor; [exact IH|].
  apply Forall_forall. intros x Hx. apply in_map_iff in Hx.
  destruct Hx as [[b' p'] [E Hin]]. simpl in E. subst x.
  destruct (tiles_In _ _ _ _ _ _ Ht Hin) as [H1 _].
  pose proof (seg_pos W p ltac:(lia)). lia.
Qed.

Lemma tiles_cidr s e l : tiles W s e l -> Forall (cidr_block W) l.
Proof.
  intros Ht. apply Forall_forall. intros [b p] Hin.
  destruct (tiles_In _ _ _ _ _ _ Ht Hin) as [_ [_ [H3 H4]]].
  split; [exact H3 | exact H4].
Qed.

Lemma sorted_NoDup (l : list Z) : StronglySorted Z.lt l -> NoDup l.
Proof.
  induction 1 as [| a l _ IH Hall]; constructor; [| exact IH].
  intros Hin. rewrite Forall_forall in Hall. specialize (Hall a Hin). lia.
Qed.

(** An interval of one address is tiled by its block of prefix length
    [W] alone. *)
Lemma tiles_single s l : tiles W s s l -> l = [(s, W)].
Proof.
  intros Ht. inversion Ht as [s' Hs He | b p e l' Hp Ha Hb Ht' Hs]; subst; [lia|].
  assert (p = W) as ->.
  { destruct (Z.eq_dec p W) as [|Hne]; [assumption|].
    assert (2 ^ 1 <= 2 ^ (W - p)) by (apply Z.pow_le_mono_r; lia).
    change (2 ^ 1) with 2 in *. lia. }
  f_equal. inversion Ht' as [s' Hs He | b' p' e' l'' Hp' Ha' Hb' Ht'' Hs']; subst;
    [reflexivity|].
  pose proof (seg_pos W p' ltac:(lia)). pose proof (seg_pos W W ltac:(lia)). lia.
Qed.

(** ** Minimality *)

(** The base of a maximal block of the interval is the base of a block in
    any cover of the interval by allowed blocks. *)
Lemma base_in_cover s e l L b p :
  good W s e l -> Forall (cidr_block W) L -> exact_cover W L s e ->
  In (b, p) l -> In b (map fst L).
Proof.
  intros [Ht Hm] HL Hcov Hin.
  destruct (tiles_In _ _ _ _ _ _ Ht Hin) as [H1 [H2 [H3 H4]]].
  pose proof (seg_pos W p ltac:(lia)) as Hq.
  destruct (proj1 (Hcov b) ltac:(lia)) as [[c q] [HinL Hc]].
  rewrite Forall_forall in HL, Hm.
  destruct (HL _ HinL) as [Hq1 Hq2]. unfold aligned, block_size in Hq2.
  simpl in Hq1, Hq2.
  pose proof (seg_pos W q ltac:(lia)) as Hcq.
  unfold in_subnet, last_addr, block_size in Hc. simpl in Hc.
  apply andb_true_iff in Hc. destruct Hc as [Hc1 Hc2].
  apply Z.leb_le in Hc1, Hc2.
  apply in_map_iff. exists (c, q). split; [| exact HinL]. simpl.
  destruct (Z.lt_ge_cases q p) as [Hlt | Hge].
  - (* the covering block is larger: the parent of the block would fit *)
    exfalso.
    destruct (Hm _ Hin) as [Hp1 | Hnf]; simpl in *; [lia|].
    apply Hnf. clear Hnf.
    assert (s <= c /\ c + 2 ^ (W - q) - 1 <= e) as [Hsc Hce].
    { split.
      - apply (proj2 (Hcov c)). exists (c, q). split; [exact HinL|].
        unfold in_subnet, last_addr, block_size. simpl.
        apply andb_true_iff. split; apply Z.leb_le; lia.
      - apply (proj2 (Hcov (c + 2 ^ (W - q) - 1))). exists (c, q).
        split; [exact HinL|].
        unfold in_subnet, last_addr, block_size. simpl.
        apply andb_true_iff. split; apply Z.leb_le; lia. }
    destruct (pow2_divides (W - p + 1) (W - q) ltac:(lia)) as [k [Hk Ek]].
    pose proof (seg_pos W (p - 1) ltac:(lia)) as Hq2'.
    replace (W - (p - 1)) with (W - p + 1) in Hq2' by lia.
    set (Q2 := 2 ^ (W - p + 1)) in *.
    apply Z.mod_divide in Hq2; [| lia]. destruct Hq2 as [m Em].
    pose proof (Z.div_mod b Q2 ltac:(lia)) as E.
    pose proof (Z.mod_pos_bound b Q2 Hq2') as B.
    rewrite Ek in *.
    assert (m * k <= b / Q2) by nia.
    assert (b / Q2 < m * k + k) by nia.
    split; nia.
  - (* the covering block is not larger: it starts where the block does *)
    destruct (pow2_divides (W - q) (W - p) ltac:(lia)) as [k [Hk Ek]].
    apply Z.mod_divide in Hq2; [| lia]. destruct Hq2 as [m Em].
    apply Z.mod_divide in H4; [| lia]. destruct H4 as [m' Em'].
    rewrite Ek in Em'.
    assert (m = m' * k) by nia.
    nia.
Qed.

Lemma good_minimal s e l L :
  good W s e l -> Forall (cidr_block W) L -> exact_cover W L s e ->
  (List.length l <= List.length L)%nat.
Proof.
  intros Hg HL Hcov.
  assert (List.length (map fst l) <= List.length (map fst L))%nat as H;
    [| rewrite !length_map in H; exact H].
  apply NoDup_incl_length.
  - apply sorted_NoDup. apply tiles_sorted with (s := s) (e := e). apply Hg.
  - intros b Hb. apply in_map_iff in Hb. destruct Hb as [[b' p] [E Hin]].
    simpl in E. subst b'.
    apply base_in_cover with (s := s) (e := e) (l := l) (p := p); assumption.
Qed.

End Properties.

(** * The maximal blocks of an interval are unique *)

Section Unique.
Variable W : Z.

Lemma first_block_not_longer S E b p p' :
  1 <= p <= W -> 1 <= p' <= W ->
  b mod 2 ^ (W - p) = 0 -> S <= b -> b + 2 ^ (W - p) - 1 <= E ->
  maximal W S E (b, p') -> ~ p < p'.
Proof.
  intros Hp Hp' Hb HS HE [H1 | Hnf] Hlt; simpl in *; [lia|].
  apply Hnf. clear Hnf.
  destruct (pow2_divides (W - p' + 1) (W - p) ltac:(lia)) as [k [Hk Ek]].
  pose proof (seg_pos W (p' - 1) ltac:(lia)) as Hq.
  replace (W - (p' - 1)) with (W - p' + 1) in Hq by lia.
  set (Q2 := 2 ^ (W - p' + 1)) in *.
  apply Z.mod_divide in Hb; [| lia]. destruct Hb as [m Em].
  rewrite Ek in *.
  assert (b / Q2 = m * k) as ->.
  { subst b. rewrite Z.mul_assoc. apply Z.div_mul. lia. }
  split; nia.
Qed.

Lemma good_unique S E s e l l' :
  tiles W s e l -> tiles W s e l' ->
  Forall (maximal W S E) l -> Forall (maximal W S E) l' ->
  S <= s -> e <= E -> l = l'.
Proof.
  intros Ht. revert l'.
  induction Ht as [s | b p e l Hp Ha Hb Ht IH]; intros l' Ht' Hm Hm' HS HE.
  - inversion Ht' as [| b' p' e' l'' Hp' Ha' Hb' Ht'' Hs']; subst; [reflexivity|].
    pose proof (seg_pos W p' ltac:(lia)). lia.
  - pose proof (seg_pos W p ltac:(lia)) as Hq.
    inversion Ht' as [s' Hs He | b' p' e' l'' Hp' Ha' Hb' Ht'' Hs']; subst; [lia|].
    inversion Hm as [| x xs Hx Hxs]; subst.
    inversion Hm' as [| y ys Hy Hys]; subst.
    assert (p = p') as <-.
    { pose proof (first_block_not_longer S E b p p' Hp Hp' Ha HS ltac:(lia) Hy).
      pose proof (first_block_not_longer S E b p' p Hp' Hp Ha' HS ltac:(lia) Hx).
      lia. }
    f_equal. apply IH; auto; lia.
Qed.

End Unique.

(** * The two decomposers of the source *)

Lemma width_pos (fam : family) : 1 <= width fam.
Proof. destruct fam; simpl; lia. Qed.

Lemma first_segment_pow (fam : family) : first_segment fam = 2 ^ (width fam - 1).
Proof. destruct fam; reflexivity. Qed.

(** The decomposer of each family returns, as texts, the maximal blocks of
    its interval; its loop runs [width] times and its recursive calls are on
    strictly smaller intervals inside its own. *)
Lemma decomposer_correct (fam : family) (s e : Z) (save : list string) :
  0 <= s <= e -> e < 2 ^ width fam ->
  exists l calls,
    subnets (width fam) (depth (width fam)) s e = Some l /\
    makeSubnetFromRange_traced fam s e save =
      Some (Z.to_nat (width fam), calls,
            save ++ map (subnet_text (format_addr fam)) l) /\
    makeSubnetFromRange fam s e save =
      Some (save ++ map (subnet_text (format_addr fam)) l) /\
    good (width fam) s e l /\
    Forall (smaller_inside s e) calls.
Proof.
  intros Hse He.
  pose proof (width_pos fam) as HW.
  pose proof (depth_enough (width fam) HW s e Hse He) as Hd.
  destruct (make_good (width fam) HW (fun sn => sn) (depth (width fam)) s e []
              Hse He Hd) as [l0 [E0 [Ht0 Hm0]]].
  destruct (make_traced_good (width fam) HW (subnet_text (format_addr fam))
              (depth (width fam)) s e save Hse He Hd)
    as [l [calls [E [[Ht Hm] Hcalls]]]].
  assert (l0 = l) as ->.
  { apply good_unique with (W := width fam) (S := s) (E := e) (s := s) (e := e);
      auto; lia. }
  exists l, calls.
  assert (makeSubnetFromRange_traced fam s e save =
          Some (Z.to_nat (width fam), calls,
                save ++ map (subnet_text (format_addr fam)) l)) as Etr.
  { unfold makeSubnetFromRange_traced. rewrite first_segment_pow. exact E. }
  split; [| split; [exact Etr | split; [| split; [split; assumption | exact Hcalls]]]].
  - unfold subnets. rewrite map_id in E0. exact E0.
  - assert (makeSubnetFromRange fam s e save =
            make (width fam) (first_segment fam) (push_text (format_addr fam))
                 (depth (width fam)) s e save) as -> by (destruct fam; reflexivity).
    rewrite make_traced_erase.
    unfold makeSubnetFromRange_traced in Etr. rewrite Etr. reflexivity.
Qed.

(** * The claims on the decomposers *)

(** C1. For both widths and every interval [0 <= s <= e < 2^width], the
    subnets the decomposer emits partition the interval: every address of
    the interval lies in exactly one emitted subnet, and no emitted subnet
    holds an address outside the interval. *)
Theorem C1_decomposition_is_exact_partition (fam : family) (s e : Z) :
  0 <= s <= e -> e < 2 ^ width fam ->
  exists l,
    makeSubnetFromRange fam s e [] = Some (map (subnet_text (format_addr fam)) l) /\
    subnets (width fam) (depth (width fam)) s e = Some l /\
    exact_partition (width fam) l s e.
Proof.
  intros Hse He.
  destruct (decomposer_correct fam s e [] Hse He)
    as [l [calls [E1 [_ [E2 [[Ht _] _]]]]]].
  exists l. split; [exact E2 | split; [exact E1 |]].
  apply tiles_partition. exact Ht.
Qed.

Lemma C1_witness :
  (0 <= 3232235521 <= 3232235620 /\ 3232235620 < 2 ^ width IPv4) /\
  exists l,
    makeSubnetFromRange IPv4 3232235521 3232235620 [] =
      Some (map (subnet_text (format_addr IPv4)) l) /\
    subnets (width IPv4) (depth (width IPv4)) 3232235521 3232235620 = Some l /\
    exact_partition (width IPv4) l 3232235521 3232235620.
Proof.
  split.
  - simpl. lia.
  - apply (C1_decomposition_is_exact_partition IPv4 3232235521 3232235620);
      simpl; lia.
Defined.

(** C6. Every emitted subnet has its base divisible by its block size and
    its prefix length between 1 and the width, and the emitted list is
    strictly ascending by base address. *)
Theorem C6_aligned_prefixed_ascending (fam : family) (s e : Z) :
  0 <= s <= e -> e < 2 ^ width fam ->
  exists l,
    makeSubnetFromRange fam s e [] = Some (map (subnet_text (format_addr fam)) l) /\
    subnets (width fam) (depth (width fam)) s e = Some l /\
    Forall (fun sn => fst sn mod block_size (width fam) sn = 0 /\
                      1 <= snd sn <= width fam) l /\
    StronglySorted Z.lt (map fst l).
Proof.
  intros Hse He.
  destruct (decomposer_correct fam s e [] Hse He)
    as [l [calls [E1 [_ [E2 [[Ht _] _]]]]]].
  exists l. split; [exact E2 | split; [exact E1 | split]].
  - pose proof (tiles_cidr _ _ _ _ Ht) as Hc.
    eapply Forall_impl; [| exact Hc].
    intros sn [Hp Ha]. split; [exact Ha | exact Hp].
  - apply tiles_sorted with (W := width fam) (s := s) (e := e). exact Ht.
Qed.

Lemma C6_witness :
  (0 <= 5 <= 300 /\ 300 < 2 ^ width IPv6) /\
  exists l,
    makeSubnetFromRange IPv6 5 300 [] = Some (map (subnet_text (format_addr IPv6)) l) /\
    subnets (width IPv6) (depth (width IPv6)) 5 300 = Some l /\
    Forall (fun sn => fst sn mod block_size (width IPv6) sn = 0 /\
                      1 <= snd sn <= width IPv6) l /\
    StronglySorted Z.lt (map fst l).
Proof.
  split.
  - simpl. lia.
  - apply (C6_aligned_prefixed_ascending IPv6 5 300); simpl; lia.
Defined.

(** A partition of the interval covers exactly the interval. *)
Lemma partition_cover (W : Z) (l : list subnet) (s e : Z) :
  exact_partition W l s e -> exact_cover W l s e.
Proof.
  intros [H1 H2] a. split.
  - intros Ha. specialize (H1 a Ha).
    destruct (filter (in_subnet W a) l) as [|sn r] eqn:E; [discriminate H1|].
    exists sn. apply filter_In. rewrite E. left. reflexivity.
  - intros [sn [Hin Hs]]. apply (H2 sn a Hin Hs).
Qed.

(** C4. The emitted list is a list of CIDR blocks of prefix length at least
    1 that covers exactly the interval, and it is as short as any list of
    such blocks that covers exactly the interval; no emitted block has the
    prefix length 0; the whole address space gives the two blocks of prefix
    length 1; one address gives its block of prefix length [width]
    alone. *)
Theorem C4_minimal_under_policy (fam : family) (s e : Z) :
  0 <= s <= e -> e < 2 ^ width fam ->
  exists l,
    makeSubnetFromRange fam s e [] = Some (map (subnet_text (format_addr fam)) l) /\
    subnets (width fam) (depth (width fam)) s e = Some l /\
    Forall (cidr_block (width fam)) l /\
    exact_cover (width fam) l s e /\
    (forall L, Forall (cidr_block (width fam)) L -> exact_cover (width fam) L s e ->
               (List.length l <= List.length L)%nat) /\
    Forall (fun sn => snd sn <> 0) l /\
    (s = 0 -> e = 2 ^ width fam - 1 -> l = [(0, 1); (2 ^ (width fam - 1), 1)]) /\
    (s = e -> l = [(s, width fam)]).
Proof.
  intros Hse He.
  destruct (decomposer_correct fam s e [] Hse He)
    as [l [calls [E1 [_ [E2 [Hg _]]]]]].
  pose proof (tiles_cidr _ _ _ _ (proj1 Hg)) as Hc.
  exists l. split; [exact E2 | split; [exact E1 |]].
  split; [exact Hc |]. split; [| split; [| split; [| split]]].
  - apply partition_cover. apply tiles_partition. exact (proj1 Hg).
  - intros L HL Hcov.
    apply good_minimal with (W := width fam) (s := s) (e := e); assumption.
  - eapply Forall_impl; [| exact Hc].
    intros sn [Hp _]. lia.
  - intros -> ->. destruct fam; vm_compute in E1; injection E1 as <-; reflexivity.
  - intros <-. destruct Hg as [Ht _]. apply tiles_single. exact Ht.
Qed.

Lemma C4_witness :
  (0 <= 0 <= 2 ^ 32 - 1 /\ 2 ^ 32 - 1 < 2 ^ width IPv4) /\
  exists l,
    makeSubnetFromRange IPv4 0 (2 ^ 32 - 1) [] =
      Some (map (subnet_text (format_addr IPv4)) l) /\
    subnets (width IPv4) (depth (width IPv4)) 0 (2 ^ 32 - 1) = Some l /\
    Forall (cidr_block (width IPv4)) l /\
    exact_cover (width IPv4) l 0 (2 ^ 32 - 1) /\
    (forall L, Forall (cidr_block (width IPv4)) L ->
               exact_cover (width IPv4) L 0 (2 ^ 32 - 1) ->
               (List.length l <= List.length L)%nat) /\
    Forall (fun sn => snd sn <> 0) l /\
    (0 = 0 -> 2 ^ 32 - 1 = 2 ^ width IPv4 - 1 ->
     l = [(0, 1); (2 ^ (width IPv4 - 1), 1)]) /\
    (0 = 2 ^ 32 - 1 -> l = [(0, width IPv4)]).
Proof.
  split.
  - simpl. lia.
  - apply (C4_minimal_under_policy IPv4 0 (2 ^ 32 - 1)); simpl; lia.
Defined.

(** C9. The decomposition terminates: the loop of an invocation runs
    exactly [width] times, every recursive call it makes is on a strictly
    smaller interval inside its own, and the procedure returns a result
    that no larger bound on the depth of recursion changes. *)
Theorem C9_decomposition_terminates (fam : family) (s e : Z) (save : list string) :
  0 <= s <= e -> e < 2 ^ width fam ->
  exists k calls r,
    makeSubnetFromRange_traced fam s e save = Some (k, calls, r) /\
    Z.of_nat k = width fam /\
    Forall (smaller_inside s e) calls /\
    makeSubnetFromRange fam s e save = Some r /\
    forall fuel, (depth (width fam) <= fuel)%nat ->
                 makeSubnetFromRange_upto fam fuel s e save = Some r.
Proof.
  intros Hse He.
  destruct (decomposer_correct fam s e save Hse He)
    as [l [calls [_ [Etr [E2 [_ Hcalls]]]]]].
  exists (Z.to_nat (width fam)), calls, (save ++ map (subnet_text (format_addr fam)) l).
  split; [exact Etr | split; [| split; [exact Hcalls | split; [exact E2 |]]]].
  - pose proof (width_pos fam). lia.
  - intros fuel Hfuel. unfold makeSubnetFromRange_upto.
    apply make_mono_le with (fuel := depth (width fam)); [exact Hfuel|].
    rewrite <- E2. destruct fam; reflexivity.
Qed.

Lemma C9_witness :
  (0 <= 3232235521 <= 3232235620 /\ 3232235620 < 2 ^ width IPv4) /\
  exists k calls r,
    makeSubnetFromRange_traced IPv4 3232235521 3232235620 [] = Some (k, calls, r) /\
    Z.of_nat k = width IPv4 /\
    Forall (smaller_inside 3232235521 3232235620) calls /\
    makeSubnetFromRange IPv4 3232235521 3232235620 [] = Some r /\
    forall fuel, (depth (width IPv4) <= fuel)%nat ->
                 makeSubnetFromRange_upto IPv4 fuel 3232235521 3232235620 [] = Some r.
Proof.
  split.
  - simpl. lia.
  - apply (C9_decomposition_terminates IPv4 3232235521 3232235620 []); simpl; lia.
Defined.

(** * Splitting and joining strings *)

Section Split.
Variable sep : ascii.

Lemma contains_app (a b : string) :
  contains sep (a ++ b) = contains sep a || contains sep b.
Proof.
  induction a as [|c a IH]; simpl; [reflexivity|].
  destruct (Ascii.eqb c sep); [reflexivity | exact IH].
Qed.

Lemma split_nonempty (s : string) : split sep s <> [].
Proof.
  destruct s as [|c s]; simpl; [discriminate|].
  destruct (Ascii.eqb c sep); [discriminate|].
  destruct (split sep s); discriminate.
Qed.

Lemma split_nosep (a : string) : contains sep a = false -> split sep a = [a].
Proof.
  induction a as [|c a IH]; simpl; [reflexivity|].
  destruct (Ascii.eqb c sep); [discriminate|].
  intros H. rewrite (IH H). reflexivity.
Qed.

Lemma split_app (a r : string) :
  contains sep a = false -> split sep (a ++ String sep r) = a :: split sep r.
Proof.
  induction a as [|c a IH]; simpl.
  - intros _. rewrite Ascii.eqb_refl. reflexivity.
  - destruct (Ascii.eqb c sep); [discriminate|].
    intros H. rewrite (IH H). reflexivity.
Qed.

Lemma split_concat (gs : list string) :
  gs <> [] -> forallb (fun g => negb (contains sep g)) gs = true ->
  split sep (String.concat (String sep EmptyString) gs) = gs.
Proof.
  induction gs as [|g gs IH]; [congruence|].
  intros _ H. simpl in H. apply andb_true_iff in H. destruct H as [Hg Hgs].
  apply negb_true_iff in Hg.
  destruct gs as [|g' gs].
  - simpl. apply split_nosep. exact Hg.
  - change (String.concat (String sep EmptyString) (g :: g' :: gs))
      with (g ++ String sep (String.concat (String sep EmptyString) (g' :: gs)))%string.
    rewrite split_app by exact Hg.
    rewrite IH; [reflexivity | discriminate | exact Hgs].
Qed.

Lemma concat_split (s : string) :
  String.concat (String sep EmptyString) (split sep s) = s.
Proof.
  induction s as [|c s IH]; simpl; [reflexivity|].
  destruct (Ascii.eqb_spec c sep) as [->|Hne].
  - pose proof (split_nonempty s) as Hn.
    destruct (split sep s) as [|h t]; [congruence|].
    change (String.concat (String sep EmptyString) (EmptyString :: h :: t))
      with (String sep (String.concat (String sep EmptyString) (h :: t))).
    rewrite IH. reflexivity.
  - pose proof (split_nonempty s) as Hn.
    destruct (split sep s) as [|h t]; [congruence|].
    rewrite <- IH. destruct t; reflexivity.
Qed.


Lemma split_single_nosep (s a : string) : split sep s = [a] -> contains sep s = false.
Proof.
  revert a. induction s as [|c s IH]; simpl; intros a H; [reflexivity|].
  destruct (Ascii.eqb c sep).
  - pose proof (split_nonempty s). destruct (split sep s); congruence.
  - pose proof (split_nonempty s) as Hn.
    destruct (split sep s) as [|h t] eqn:E; [congruence|].
    injection H as _ ->. apply IH with (a := h). reflexivity.
Qed.

End Split.

(** * Octets and groups of hex digits *)

Lemma is_digit_cases (c : ascii) : is_digit c = true -> In c digit_chars.
Proof.
  destruct c as [[] [] [] [] [] [] [] []]; vm_compute; intros H;
    try discriminate H; tauto.
Qed.

Lemma lower_hex_digit_cases (c : ascii) :
  lower_hex_digit c = true -> In c lower_hex_chars.
Proof.
  destruct c as [[] [] [] [] [] [] [] []]; vm_compute; intros H;
    try discriminate H; tauto.
Qed.

Lemma in_strings1 (cs : list ascii) (c : ascii) :
  In c cs -> In (String c EmptyString) (strings1 cs).
Proof.
  intros H. unfold strings1.
  apply (in_map (fun x => String x EmptyString)). exact H.
Qed.

Lemma in_extend (cs : list ascii) (ss : list string) (c : ascii) (s : string) :
  In c cs -> In s ss -> In (String c s) (extend cs ss).
Proof.
  intros Hc Hs. unfold extend. apply in_flat_map. exists c.
  split; [exact Hc | apply (in_map (String c)); exact Hs].
Qed.

Lemma in_zrange (n : nat) (lo x : Z) :
  lo <= x < lo + Z.of_nat n -> In x (zrange lo n).
Proof.
  revert lo. induction n as [|n IH]; intros lo H; [lia|].
  simpl. destruct (Z.eq_dec lo x) as [->|Hne]; [left; reflexivity | right].
  apply IH. lia.
Qed.

Lemma octet_candidates_ok : forallb octet_text_ok octet_candidates = true.
Proof. vm_compute. reflexivity. Qed.

Lemma octet_values_ok : forallb octet_value_ok (zrange 0 256) = true.
Proof. vm_compute. reflexivity. Qed.


(** ** The digits of a number *)

Lemma digits_to_small (radix : Z) (fuel : nat) (n : Z) (acc : string) :
  0 <= n < radix -> digits_to radix fuel n acc = String (digit_char n) acc.
Proof.
  intros H. destruct fuel; simpl.
  - rewrite Z.mod_small by lia. reflexivity.
  - rewrite Z.mod_small, Z.div_small by lia. reflexivity.
Qed.

Lemma digits_to_step (radix : Z) (fuel : nat) (n : Z) (acc : string) :
  0 < radix <= n ->
  digits_to radix (S fuel) n acc =
  digits_to radix fuel (n / radix) (String (digit_char (n mod radix)) acc).
Proof.
  intros H. cbn [digits_to].
  destruct (Z.eqb_spec (n / radix) 0) as [E|]; [| reflexivity].
  apply Z.div_small_iff in E; lia.
Qed.

Lemma log2_fuel (k : Z) (v : Z) :
  0 <= k -> 2 ^ k <= v -> (Z.to_nat k <= Z.to_nat (Z.log2 v))%nat.
Proof.
  intros Hk Hv. apply Z2Nat.inj_le; [lia | apply Z.log2_nonneg |].
  apply Z.log2_le_pow2; [| exact Hv].
  pose proof (Z.pow_pos_nonneg 2 k ltac:(lia) Hk). lia.
Qed.

(** The four hex digits of a number below [65536], zero-padded. *)
Lemma hex4_digits (d1 d2 d3 d4 : Z) :
  0 <= d1 < 16 -> 0 <= d2 < 16 -> 0 <= d3 < 16 -> 0 <= d4 < 16 ->
  hex4 (((d1 * 16 + d2) * 16 + d3) * 16 + d4) =
  String (digit_char d1) (String (digit_char d2)
    (String (digit_char d3) (String (digit_char d4) EmptyString))).
Proof.
  intros H1 H2 H3 H4. unfold hex4, toString.
  set (v := ((d1 * 16 + d2) * 16 + d3) * 16 + d4).
  destruct (Z.ltb_spec v 0) as [Hneg|_]; [unfold v in Hneg; lia|].
  destruct (Z.eq_dec d1 0) as [E1|N1].
  - subst d1. destruct (Z.eq_dec d2 0) as [E2|N2].
    + subst d2. destruct (Z.eq_dec d3 0) as [E3|N3].
      * subst d3. rewrite digits_to_small by (unfold v; lia).
        unfold v. simpl (((0 * 16 + 0) * 16 + 0) * 16 + d4). reflexivity.
      * pose proof (log2_fuel 4 v ltac:(lia) ltac:(unfold v; simpl; lia)) as Hf.
        destruct (Z.to_nat (Z.log2 v)) as [|f]; [simpl in Hf; lia|].
        rewrite digits_to_step by (unfold v; lia).
        rewrite digits_to_small by (unfold v; Z.div_mod_to_equations; lia).
        replace (v / 16) with d3 by (unfold v; Z.div_mod_to_equations; lia).
        replace (v mod 16) with d4 by (unfold v; Z.div_mod_to_equations; lia).
        reflexivity.
    + pose proof (log2_fuel 8 v ltac:(lia) ltac:(unfold v; simpl; lia)) as Hf.
      destruct (Z.to_nat (Z.log2 v)) as [|[|f]]; try (simpl in Hf; lia).
      rewrite digits_to_step by (unfold v; lia).
      rewrite digits_to_step by (unfold v; Z.div_mod_to_equations; lia).
      rewrite digits_to_small by (unfold v; Z.div_mod_to_equations; lia).
      replace (v / 16 / 16) with d2 by (unfold v; Z.div_mod_to_equations; lia).
      replace (v / 16 mod 16) with d3 by (unfold v; Z.div_mod_to_equations; lia).
      replace (v mod 16) with d4 by (unfold v; Z.div_mod_to_equations; lia).
      reflexivity.
  - pose proof (log2_fuel 12 v ltac:(lia) ltac:(unfold v; simpl; lia)) as Hf.
    destruct (Z.to_nat (Z.log2 v)) as [|[|[|f]]]; try (simpl in Hf; lia).
    rewrite digits_to_step by (unfold v; lia).
    rewrite digits_to_step by (unfold v; Z.div_mod_to_equations; lia).
    rewrite digits_to_step by (unfold v; Z.div_mod_to_equations; lia).
    rewrite digits_to_small by (unfold v; Z.div_mod_to_equations; lia).
    replace (v / 16 / 16 / 16) with d1 by (unfold v; Z.div_mod_to_equations; lia).
    replace (v / 16 / 16 mod 16) with d2 by (unfold v; Z.div_mod_to_equations; lia).
    replace (v / 16 mod 16) with d3 by (unfold v; Z.div_mod_to_equations; lia).
    replace (v mod 16) with d4 by (unfold v; Z.div_mod_to_equations; lia).
    reflexivity.
Qed.

Lemma lower_hex_digit_facts (c : ascii) :
  lower_hex_digit c = true ->
  exists d, hex_value c = Some d /\ 0 <= d < 16 /\ digit_char d = c /\
            isWhiteSpace c = false /\ Ascii.eqb c ":" = false /\
            Ascii.eqb c "-" = false.
Proof.
  intros H. apply lower_hex_digit_cases in H. simpl in H.
  repeat (destruct H as [<- | H]; [eexists; split; [vm_compute; reflexivity|];
    split; [lia|]; repeat split; reflexivity |]).
  destruct H.
Qed.

Lemma digit_char_facts (d : Z) :
  0 <= d < 16 ->
  hex_value (digit_char d) = Some d /\ lower_hex_digit (digit_char d) = true.
Proof.
  intros H.
  assert (d = 0 \/ d = 1 \/ d = 2 \/ d = 3 \/ d = 4 \/ d = 5 \/ d = 6 \/ d = 7 \/
          d = 8 \/ d = 9 \/ d = 10 \/ d = 11 \/ d = 12 \/ d = 13 \/ d = 14 \/ d = 15)
    as Hd by lia.
  repeat (destruct Hd as [-> | Hd]; [split; reflexivity |]).
  subst d. split; reflexivity.
Qed.

Lemma BigInt_0x_group (c1 c2 c3 c4 : ascii) (d1 d2 d3 d4 : Z) :
  hex_value c1 = Some d1 -> hex_value c2 = Some d2 ->
  hex_value c3 = Some d3 -> hex_value c4 = Some d4 ->
  isWhiteSpace c4 = false ->
  BigInt_0x (String c1 (String c2 (String c3 (String c4 EmptyString)))) =
  Some (((d1 * 16 + d2) * 16 + d3) * 16 + d4).
Proof.
  intros H1 H2 H3 H4 Hw. unfold BigInt_0x. cbn [trimEnd]. rewrite Hw.
  cbn [hex_digits]. rewrite H1, H2, H3, H4. cbn [obind].
  unfold horner. cbn [fold_left]. f_equal.
Qed.

(** ** Octets *)

Lemma octet_text (o : string) :
  minimal_decimal_octet o = true ->
  exists n, parseInt o = Num n /\ 0 <= n <= 255 /\ toString 10 n = o /\
            contains "." o = false /\ contains "-" o = false.
Proof.
  intros H.
  assert (In o octet_candidates) as Hin.
  { unfold octet_candidates.
    destruct o as [|c1 [|c2 [|c3 [|c4 r]]]]; try discriminate H;
      unfold minimal_decimal_octet in H.
    - apply in_or_app. left. apply in_strings1, is_digit_cases, H.
    - apply andb_true_iff in H. destruct H as [H H2].
      apply andb_true_iff in H. destruct H as [H1 _].
      apply in_or_app. right. apply in_or_app. left.
      apply in_extend; [| apply in_strings1]; apply is_digit_cases; assumption.
    - apply andb_true_iff in H. destruct H as [H _].
      apply andb_true_iff in H. destruct H as [H H3].
      apply andb_true_iff in H. destruct H as [H H2].
      apply andb_true_iff in H. destruct H as [H1 _].
      apply in_or_app. right. apply in_or_app. right.
      apply in_extend; [| apply in_extend; [| apply in_strings1]];
        apply is_digit_cases; assumption. }
  pose proof octet_candidates_ok as Hall. rewrite forallb_forall in Hall.
  specialize (Hall o Hin). unfold octet_text_ok in Hall. rewrite H in Hall.
  simpl in Hall. destruct (parseInt o) as [|n]; [discriminate|].
  exists n. split; [reflexivity|].
  repeat (apply andb_true_iff in Hall; destruct Hall as [Hall ?]).
  repeat match goal with H : negb _ = true |- _ => apply negb_true_iff in H end.
  split; [lia|]. split; [apply String.eqb_eq; assumption|]. split; assumption.
Qed.

Lemma octet_value (n : Z) :
  0 <= n <= 255 ->
  parseInt (toString 10 n) = Num n /\ contains "." (toString 10 n) = false /\
  minimal_decimal_octet (toString 10 n) = true.
Proof.
  intros H.
  pose proof octet_values_ok as Hall. rewrite forallb_forall in Hall.
  specialize (Hall n (in_zrange 256 0 n ltac:(lia))). unfold octet_value_ok in Hall.
  repeat (apply andb_true_iff in Hall; destruct Hall as [Hall ?]).
  destruct (parseInt (toString 10 n)) as [|m]; [discriminate|].
  apply Z.eqb_eq in Hall. subst m.
  repeat match goal with H : negb _ = true |- _ => apply negb_true_iff in H end.
  auto.
Qed.

(** ** The 32-bit operators on the addresses *)

Lemma band_255 (x : Z) : 0 <= x < 2 ^ 32 -> band (Num x) (Num 255) = Num (x mod 256).
Proof.
  intros H. unfold band, ToInt32, ToUint32.
  rewrite (Z.mod_small x) by lia.
  change (255 mod 2 ^ 32) with 255. change (255 <? 2 ^ 31) with true. cbv iota.
  change 255 with (Z.ones 8). f_equal.
  destruct (x <? 2 ^ 31).
  - rewrite Z.land_ones by lia. reflexivity.
  - rewrite Z.land_ones by lia. change (2 ^ 8) with 256.
    change (2 ^ 32) with (16777216 * 256).
    rewrite <- Z.add_opp_r, <- Z.mul_opp_l. apply Z.mod_add. lia.
Qed.

Lemma ushr_div (a k : Z) :
  0 <= a < 2 ^ 32 -> 0 <= k < 32 -> ushr (Num a) k = Num (a / 2 ^ k).
Proof.
  intros Ha Hk. unfold ushr, ToUint32.
  rewrite (Z.mod_small a), (Z.mod_small k) by lia.
  rewrite Z.shiftr_div_pow2 by lia. reflexivity.
Qed.

Lemma toIPv4AddrString_octets (a : Z) :
  0 <= a < 2 ^ 32 ->
  _toIPv4AddrString (Num a) =
  String.concat "." [toString 10 (a / 16777216 mod 256);
                     toString 10 (a / 65536 mod 256);
                     toString 10 (a / 256 mod 256);
                     toString 10 (a mod 256)].
Proof.
  intros Ha. unfold _toIPv4AddrString.
  rewrite !ushr_div by lia.
  rewrite !band_255; [reflexivity | | | |]; try lia.
  - change (2 ^ 8) with 256. Z.div_mod_to_equations. lia.
  - change (2 ^ 16) with 65536. Z.div_mod_to_equations. lia.
  - change (2 ^ 24) with 16777216. Z.div_mod_to_equations. lia.
Qed.

Lemma toIPv4AddrInteger_octets (g1 g2 g3 g4 : string) (n1 n2 n3 n4 : Z) :
  contains "." g1 = false -> contains "." g2 = false ->
  contains "." g3 = false -> contains "." g4 = false ->
  parseInt g1 = Num n1 -> parseInt g2 = Num n2 ->
  parseInt g3 = Num n3 -> parseInt g4 = Num n4 ->
  _toIPv4AddrInteger (String.concat "." [g1; g2; g3; g4]) =
  Num (n1 * 16777216 + n2 * 65536 + n3 * 256 + n4).
Proof.
  intros C1 C2 C3 C4 P1 P2 P3 P4. unfold _toIPv4AddrInteger.
  rewrite split_concat; [| discriminate |].
  - unfold parseInt_at. cbn [nth_error]. rewrite P1, P2, P3, P4. reflexivity.
  - cbn [forallb]. rewrite C1, C2, C3, C4. reflexivity.
Qed.

Lemma IPv4_parse_format (a : Z) :
  0 <= a < 2 ^ 32 -> _toIPv4AddrInteger (_toIPv4AddrString (Num a)) = Num a.
Proof.
  intros Ha. rewrite toIPv4AddrString_octets by exact Ha.
  assert (forall x, 0 <= x mod 256 <= 255) as Hb.
  { intros x. pose proof (Z.mod_pos_bound x 256 ltac:(lia)). lia. }
  destruct (octet_value (a / 16777216 mod 256) (Hb _)) as [P1 [C1 _]].
  destruct (octet_value (a / 65536 mod 256) (Hb _)) as [P2 [C2 _]].
  destruct (octet_value (a / 256 mod 256) (Hb _)) as [P3 [C3 _]].
  destruct (octet_value (a mod 256) (Hb _)) as [P4 [C4 _]].
  rewrite (toIPv4AddrInteger_octets _ _ _ _ _ _ _ _ C1 C2 C3 C4 P1 P2 P3 P4).
  f_equal. Z.div_mod_to_equations. lia.
Qed.

Lemma IPv4_format_parse (s : string) :
  canonical IPv4 s ->
  exists a, _toIPv4AddrInteger s = Num a /\ 0 <= a < 2 ^ 32 /\
            _toIPv4AddrString (Num a) = s.
Proof.
  intros [gs [Hlen [Hall ->]]].
  destruct gs as [|g1 [|g2 [|g3 [|g4 [|g5 r]]]]]; try discriminate Hlen.
  cbn [forallb] in Hall.
  repeat (apply andb_true_iff in Hall; destruct Hall as [? Hall]).
  destruct (octet_text g1) as [n1 [P1 [B1 [T1 [C1 _]]]]]; [assumption|].
  destruct (octet_text g2) as [n2 [P2 [B2 [T2 [C2 _]]]]]; [assumption|].
  destruct (octet_text g3) as [n3 [P3 [B3 [T3 [C3 _]]]]]; [assumption|].
  destruct (octet_text g4) as [n4 [P4 [B4 [T4 [C4 _]]]]]; [assumption|].
  exists (n1 * 16777216 + n2 * 65536 + n3 * 256 + n4).
  split; [apply toIPv4AddrInteger_octets; assumption|].
  split; [lia|].
  rewrite toIPv4AddrString_octets by lia.
  replace ((n1 * 16777216 + n2 * 65536 + n3 * 256 + n4) / 16777216 mod 256)
    with n1 by (Z.div_mod_to_equations; lia).
  replace ((n1 * 16777216 + n2 * 65536 + n3 * 256 + n4) / 65536 mod 256)
    with n2 by (Z.div_mod_to_equations; lia).
  replace ((n1 * 16777216 + n2 * 65536 + n3 * 256 + n4) / 256 mod 256)
    with n3 by (Z.div_mod_to_equations; lia).
  replace ((n1 * 16777216 + n2 * 65536 + n3 * 256 + n4) mod 256)
    with n4 by (Z.div_mod_to_equations; lia).
  rewrite T1, T2, T3, T4. reflexivity.
Qed.

(** ** Groups of four hex digits *)

Lemma group_text (g : string) :
  group_of lower_hex_digit g = true ->
  exists v, BigInt_0x g = Some v /\ 0 <= v < 65536 /\ hex4 v = g /\
            contains ":" g = false /\ contains "-" g = false.
Proof.
  intros H.
  destruct g as [|c1 [|c2 [|c3 [|c4 [|c5 r]]]]]; try discriminate H.
  unfold group_of in H.
  apply andb_true_iff in H. destruct H as [H H4].
  apply andb_true_iff in H. destruct H as [H H3].
  apply andb_true_iff in H. destruct H as [H1 H2].
  destruct (lower_hex_digit_facts c1 H1) as [d1 [V1 [B1 [D1 [_ [N1 M1]]]]]].
  destruct (lower_hex_digit_facts c2 H2) as [d2 [V2 [B2 [D2 [_ [N2 M2]]]]]].
  destruct (lower_hex_digit_facts c3 H3) as [d3 [V3 [B3 [D3 [_ [N3 M3]]]]]].
  destruct (lower_hex_digit_facts c4 H4) as [d4 [V4 [B4 [D4 [W4 [N4 M4]]]]]].
  exists (((d1 * 16 + d2) * 16 + d3) * 16 + d4).
  split; [apply BigInt_0x_group; assumption|].
  split; [lia|].
  split; [rewrite hex4_digits by assumption; rewrite D1, D2, D3, D4; reflexivity|].
  cbn [contains]. rewrite N1, N2, N3, N4, M1, M2, M3, M4. split; reflexivity.
Qed.

Lemma group_digits (d1 d2 d3 d4 : Z) :
  0 <= d1 < 16 -> 0 <= d2 < 16 -> 0 <= d3 < 16 -> 0 <= d4 < 16 ->
  let v := ((d1 * 16 + d2) * 16 + d3) * 16 + d4 in
  BigInt_0x (hex4 v) = Some v /\ contains ":" (hex4 v) = false /\
  group_of lower_hex_digit (hex4 v) = true.
Proof.
  intros B1 B2 B3 B4 v. unfold v. rewrite hex4_digits by assumption.
  destruct (digit_char_facts d1 B1) as [V1 L1].
  destruct (digit_char_facts d2 B2) as [V2 L2].
  destruct (digit_char_facts d3 B3) as [V3 L3].
  destruct (digit_char_facts d4 B4) as [V4 L4].
  destruct (lower_hex_digit_facts _ L1) as [_ [_ [_ [_ [_ [N1 _]]]]]].
  destruct (lower_hex_digit_facts _ L2) as [_ [_ [_ [_ [_ [N2 _]]]]]].
  destruct (lower_hex_digit_facts _ L3) as [_ [_ [_ [_ [_ [N3 _]]]]]].
  destruct (lower_hex_digit_facts _ L4) as [_ [_ [_ [_ [W4 [N4 _]]]]]].
  split; [| split].
  - apply BigInt_0x_group; assumption.
  - cbn [contains]. rewrite N1, N2, N3, N4. reflexivity.
  - unfold group_of. rewrite L1, L2, L3, L4. reflexivity.
Qed.

Lemma group_value (v : Z) :
  0 <= v < 65536 ->
  BigInt_0x (hex4 v) = Some v /\ contains ":" (hex4 v) = false /\
  group_of lower_hex_digit (hex4 v) = true.
Proof.
  intros Hv.
  assert (v = (((v / 4096) * 16 + v / 256 mod 16) * 16 + v / 16 mod 16) * 16 + v mod 16)
    as E by (Z.div_mod_to_equations; lia).
  rewrite E.
  apply group_digits; Z.div_mod_to_equations; lia.
Qed.

(** ** The 128-bit addresses *)

Lemma land_65535 (x : Z) : Z.land x 65535 = x mod 65536.
Proof. change 65535 with (Z.ones 16). apply Z.land_ones. lia. Qed.

Lemma toIPv6AddrString_groups (a : Z) :
  0 <= a ->
  _toIPv6AddrString a =
  String.concat ":"
    [hex4 (a / 5192296858534827628530496329220096 mod 65536);
     hex4 (a / 79228162514264337593543950336 mod 65536);
     hex4 (a / 1208925819614629174706176 mod 65536);
     hex4 (a / 18446744073709551616 mod 65536);
     hex4 (a / 281474976710656 mod 65536);
     hex4 (a / 4294967296 mod 65536);
     hex4 (a / 65536 mod 65536);
     hex4 (a mod 65536)].
Proof.
  intros Ha. unfold _toIPv6AddrString, hextet.
  rewrite !land_65535. rewrite !Z.quot_div_nonneg by lia.
  rewrite Z.div_1_r. reflexivity.
Qed.

Lemma toIPv6AddrInteger_groups (g0 g1 g2 g3 g4 g5 g6 g7 : string)
      (v0 v1 v2 v3 v4 v5 v6 v7 : Z) :
  forallb (fun g => negb (contains ":" g)) [g0; g1; g2; g3; g4; g5; g6; g7] = true ->
  BigInt_0x g0 = Some v0 -> BigInt_0x g1 = Some v1 ->
  BigInt_0x g2 = Some v2 -> BigInt_0x g3 = Some v3 ->
  BigInt_0x g4 = Some v4 -> BigInt_0x g5 = Some v5 ->
  BigInt_0x g6 = Some v6 -> BigInt_0x g7 = Some v7 ->
  _toIPv6AddrInteger (String.concat ":" [g0; g1; g2; g3; g4; g5; g6; g7]) =
  Some (v0 * 5192296858534827628530496329220096 +
        v1 * 79228162514264337593543950336 +
        v2 * 1208925819614629174706176 +
        v3 * 18446744073709551616 +
        v4 * 281474976710656 +
        v5 * 4294967296 +
        v6 * 65536 +
        v7).
Proof.
  intros C P0 P1 P2 P3 P4 P5 P6 P7. unfold _toIPv6AddrInteger.
  rewrite split_concat; [| discriminate | exact C].
  unfold BigInt_0x_at. cbn [nth_error].
  rewrite P0, P1, P2, P3, P4, P5, P6, P7. reflexivity.
Qed.

Lemma IPv6_parse_format (a : Z) :
  0 <= a < 2 ^ 128 -> _toIPv6AddrInteger (_toIPv6AddrString a) = Some a.
Proof.
  intros Ha. rewrite toIPv6AddrString_groups by lia.
  assert (forall x, 0 <= x mod 65536 < 65536) as Hb.
  { intros x. apply Z.mod_pos_bound. lia. }
  destruct (group_value _ (Hb (a / 5192296858534827628530496329220096))) as [P0 [C0 _]].
  destruct (group_value _ (Hb (a / 79228162514264337593543950336))) as [P1 [C1 _]].
  destruct (group_value _ (Hb (a / 1208925819614629174706176))) as [P2 [C2 _]].
  destruct (group_value _ (Hb (a / 18446744073709551616))) as [P3 [C3 _]].
  destruct (group_value _ (Hb (a / 281474976710656))) as [P4 [C4 _]].
  destruct (group_value _ (Hb (a / 4294967296))) as [P5 [C5 _]].
  destruct (group_value _ (Hb (a / 65536))) as [P6 [C6 _]].
  destruct (group_value _ (Hb a)) as [P7 [C7 _]].
  rewrite (toIPv6AddrInteger_groups _ _ _ _ _ _ _ _ _ _ _ _ _ _ _ _
             ltac:(cbn [forallb]; rewrite C0, C1, C2, C3, C4, C5, C6, C7; reflexivity)
             P0 P1 P2 P3 P4 P5 P6 P7).
  f_equal. change (2 ^ 128) with 340282366920938463463374607431768211456 in Ha.
  Z.div_mod_to_equations. lia.
Qed.

Lemma IPv6_format_parse (s : string) :
  canonical IPv6 s ->
  exists a, _toIPv6AddrInteger s = Some a /\ 0 <= a < 2 ^ 128 /\
            _toIPv6AddrString a = s.
Proof.
  intros [gs [Hlen [Hall ->]]].
  destruct gs as [|g0 [|g1 [|g2 [|g3 [|g4 [|g5 [|g6 [|g7 [|g8 r]]]]]]]]];
    try discriminate Hlen.
  cbn [forallb] in Hall.
  repeat (apply andb_true_iff in Hall; destruct Hall as [? Hall]).
  destruct (group_text g0) as [v0 [P0 [B0 [T0 [C0 _]]]]]; [assumption|].
  destruct (group_text g1) as [v1 [P1 [B1 [T1 [C1 _]]]]]; [assumption|].
  destruct (group_text g2) as [v2 [P2 [B2 [T2 [C2 _]]]]]; [assumption|].
  destruct (group_text g3) as [v3 [P3 [B3 [T3 [C3 _]]]]]; [assumption|].
  destruct (group_text g4) as [v4 [P4 [B4 [T4 [C4 _]]]]]; [assumption|].
  destruct (group_text g5) as [v5 [P5 [B5 [T5 [C5 _]]]]]; [assumption|].
  destruct (group_text g6) as [v6 [P6 [B6 [T6 [C6 _]]]]]; [assumption|].
  destruct (group_text g7) as [v7 [P7 [B7 [T7 [C7 _]]]]]; [assumption|].
  set (a := v0 * 5192296858534827628530496329220096 +
            v1 * 79228162514264337593543950336 +
            v2 * 1208925819614629174706176 +
            v3 * 18446744073709551616 +
            v4 * 281474976710656 +
            v5 * 4294967296 +
            v6 * 65536 +
            v7).
  exists a.
  split.
  { apply toIPv6AddrInteger_groups; try assumption.
    cbn [forallb]. rewrite C0, C1, C2, C3, C4, C5, C6, C7. reflexivity. }
  change (2 ^ 128) with 340282366920938463463374607431768211456.
  split; [unfold a; lia|].
  rewrite toIPv6AddrString_groups by (unfold a; lia).
  replace (a / 5192296858534827628530496329220096 mod 65536) with v0
    by (unfold a; Z.div_mod_to_equations; lia).
  replace (a / 79228162514264337593543950336 mod 65536) with v1
    by (unfold a; Z.div_mod_to_equations; lia).
  replace (a / 1208925819614629174706176 mod 65536) with v2
    by (unfold a; Z.div_mod_to_equations; lia).
  replace (a / 18446744073709551616 mod 65536) with v3
    by (unfold a; Z.div_mod_to_equations; lia).
  replace (a / 281474976710656 mod 65536) with v4
    by (unfold a; Z.div_mod_to_equations; lia).
  replace (a / 4294967296 mod 65536) with v5
    by (unfold a; Z.div_mod_to_equations; lia).
  replace (a / 65536 mod 65536) with v6
    by (unfold a; Z.div_mod_to_equations; lia).
  replace (a mod 65536) with v7
    by (unfold a; Z.div_mod_to_equations; lia).
  rewrite T0, T1, T2, T3, T4, T5, T6, T7. reflexivity.
Qed.

(** * The claims on the conversions *)

(** C5. In each family parsing and formatting are inverse of each other:
    parsing the text of an address [0 <= a < 2^width] gives [a] back, and
    formatting what a canonical text parses to gives the text back. *)
Theorem C5_parse_format_round_trip (fam : family) (a : Z) (s : string) :
  0 <= a < 2 ^ width fam -> canonical fam s ->
  parse fam (format_addr fam a) = Some a /\
  exists b, parse fam s = Some b /\ format_addr fam b = s.
Proof.
  intros Ha Hs. destruct fam; simpl in Ha; unfold parse, format_addr, format_v4.
  - split.
    + rewrite IPv4_parse_format by exact Ha. reflexivity.
    + destruct (IPv4_format_parse s Hs) as [b [E [_ F]]].
      exists b. rewrite E. split; [reflexivity | exact F].
  - split.
    + apply IPv6_parse_format. exact Ha.
    + destruct (IPv6_format_parse s Hs) as [b [E [_ F]]].
      exists b. split; [exact E | exact F].
Qed.

Lemma C5_witness :
  (0 <= 3232235521 < 2 ^ width IPv4 /\ canonical IPv4 "192.168.0.1") /\
  parse IPv4 (format_addr IPv4 3232235521) = Some 3232235521 /\
  exists b, parse IPv4 "192.168.0.1" = Some b /\
            format_addr IPv4 b = "192.168.0.1"%string.
Proof.
  assert (canonical IPv4 "192.168.0.1") as Hc.
  { exists ["192"; "168"; "0"; "1"]%string. repeat split. }
  split.
  - split; [simpl; lia | exact Hc].
  - apply (C5_parse_format_round_trip IPv4 3232235521 "192.168.0.1");
      [simpl; lia | exact Hc].
Defined.

(** * The address checks *)

Lemma is_lower_hex_char (c : ascii) :
  is_lower_hex (String c EmptyString) = lower_hex_digit c.
Proof. destruct c as [[] [] [] [] [] [] [] []]; vm_compute; reflexivity. Qed.

(** The test [_isIPv6Addr] makes on a group. *)
Lemma isIPv6Addr_group (g : string) :
  (if negb (String.length g =? 4)%nat then false
   else is_lower_hex (substring 0 1 g) && is_lower_hex (substring 1 1 g) &&
        is_lower_hex (substring 2 1 g) && is_lower_hex (substring 3 1 g)) =
  group_of lower_hex_digit g.
Proof.
  destruct g as [|c1 [|c2 [|c3 [|c4 [|c5 r]]]]]; try reflexivity.
  cbn. rewrite !is_lower_hex_char. reflexivity.
Qed.

Lemma isIPv6Addr_unfold (s : string) :
  _isIPv6Addr s =
  (List.length (split ":" s) =? 8)%nat &&
  forallb (group_of lower_hex_digit) (split ":" s).
Proof.
  unfold _isIPv6Addr.
  destruct (List.length (split ":" s) =? 8)%nat; [| reflexivity].
  cbn [negb andb]. induction (split ":" s) as [|g gs IH]; [reflexivity|].
  cbn [forallb]. rewrite IH, isIPv6Addr_group. reflexivity.
Qed.

Lemma groups_nosep (kind : ascii -> bool) (sep : ascii) (gs : list string) :
  kind sep = false ->
  forallb (group_of kind) gs = true ->
  forallb (fun g => negb (contains sep g)) gs = true.
Proof.
  intros Hsep H. rewrite forallb_forall in *. intros g Hg. specialize (H g Hg).
  destruct g as [|c1 [|c2 [|c3 [|c4 [|c5 r]]]]]; try discriminate H.
  unfold group_of in H.
  apply andb_true_iff in H. destruct H as [H H4].
  apply andb_true_iff in H. destruct H as [H H3].
  apply andb_true_iff in H. destruct H as [H1 H2].
  cbn [contains].
  assert (forall c, kind c = true -> Ascii.eqb c sep = false) as Hne.
  { intros c Hc. destruct (Ascii.eqb_spec c sep) as [->|]; [congruence | reflexivity]. }
  rewrite (Hne _ H1), (Hne _ H2), (Hne _ H3), (Hne _ H4). reflexivity.
Qed.

(** [_isIPv6Addr] accepts exactly the canonical texts. *)
Lemma isIPv6Addr_iff (s : string) : _isIPv6Addr s = true <-> canonical IPv6 s.
Proof.
  rewrite isIPv6Addr_unfold. split.
  - intros H. apply andb_true_iff in H. destruct H as [Hlen Hall].
    exists (split ":" s). split; [apply Nat.eqb_eq; exact Hlen|].
    split; [exact Hall|]. symmetry. apply concat_split.
  - intros [gs [Hlen [Hall ->]]].
    rewrite split_concat.
    + rewrite Hlen, Hall. reflexivity.
    + destruct gs; [discriminate Hlen | discriminate].
    + apply groups_nosep with (kind := lower_hex_digit); [reflexivity | exact Hall].
Qed.

Lemma contains_concat (c sep : ascii) (gs : list string) :
  Ascii.eqb sep c = false ->
  forallb (fun g => negb (contains c g)) gs = true ->
  contains c (String.concat (String sep EmptyString) gs) = false.
Proof.
  intros Hsep. induction gs as [|g gs IH]; intros H; [reflexivity|].
  cbn [forallb] in H. apply andb_true_iff in H. destruct H as [Hg Hgs].
  apply negb_true_iff in Hg.
  destruct gs as [|g' gs]; [exact Hg|].
  change (String.concat (String sep EmptyString) (g :: g' :: gs))
    with (g ++ String sep (String.concat (String sep EmptyString) (g' :: gs)))%string.
  rewrite contains_app, Hg. cbn [contains orb]. rewrite Hsep. apply IH. exact Hgs.
Qed.

Lemma has_upper_hex_app (a b : string) :
  has_upper_hex (a ++ b) = has_upper_hex a || has_upper_hex b.
Proof.
  unfold has_upper_hex. induction a as [|c a IH]; [reflexivity|].
  cbn [append list_ascii_of_string existsb]. rewrite IH. apply orb_assoc.
Qed.

Lemma lower_not_upper (c : ascii) :
  lower_hex_digit c = true -> upper_hex_letter c = false.
Proof.
  unfold lower_hex_digit, is_digit, upper_hex_letter.
  destruct (Z.leb_spec 48 (code c)), (Z.leb_spec (code c) 57),
    (Z.leb_spec 97 (code c)), (Z.leb_spec (code c) 102),
    (Z.leb_spec 65 (code c)), (Z.leb_spec (code c) 70);
    simpl; intros Hx; try reflexivity; try discriminate Hx; lia.
Qed.

Lemma canonical_no_upper (s : string) : canonical IPv6 s -> has_upper_hex s = false.
Proof.
  intros [gs [_ [Hall ->]]]. clear - Hall.
  induction gs as [|g gs IH]; [reflexivity|].
  cbn [forallb] in Hall. apply andb_true_iff in Hall. destruct Hall as [Hg Hgs].
  assert (has_upper_hex g = false) as Eg.
  { destruct g as [|c1 [|c2 [|c3 [|c4 [|c5 r]]]]]; try discriminate Hg.
    unfold group_of in Hg.
    apply andb_true_iff in Hg. destruct Hg as [Hg H4].
    apply andb_true_iff in Hg. destruct Hg as [Hg H3].
    apply andb_true_iff in Hg. destruct Hg as [H1 H2].
    unfold has_upper_hex. cbn [list_ascii_of_string existsb].
    rewrite (lower_not_upper _ H1), (lower_not_upper _ H2),
      (lower_not_upper _ H3), (lower_not_upper _ H4). reflexivity. }
  destruct gs as [|g' gs]; [exact Eg|].
  change (String.concat ":" (g :: g' :: gs))
    with (g ++ String ":" (String.concat ":" (g' :: gs)))%string.
  rewrite has_upper_hex_app, Eg.
  change (String ":" (String.concat ":" (g' :: gs)))
    with (":" ++ String.concat ":" (g' :: gs))%string.
  rewrite has_upper_hex_app. rewrite (IH Hgs). reflexivity.
Qed.

Lemma hex_groups_no_dash (n : nat) (s : string) :
  groups n (group_of hex_digit) ":" s -> contains "-" s = false.
Proof.
  intros [gs [_ [Hall ->]]].
  apply contains_concat; [reflexivity|].
  apply groups_nosep with (kind := hex_digit); [reflexivity | exact Hall].
Qed.

Lemma lower_groups_are_hex_groups (n : nat) (s : string) :
  groups n (group_of lower_hex_digit) ":" s -> groups n (group_of hex_digit) ":" s.
Proof.
  intros [gs [Hlen [Hall ->]]]. exists gs. split; [exact Hlen|]. split; [| reflexivity].
  rewrite forallb_forall in *. intros g Hg. specialize (Hall g Hg).
  destruct g as [|c1 [|c2 [|c3 [|c4 [|c5 r]]]]]; try discriminate Hall.
  unfold group_of, hex_digit in *.
  apply andb_true_iff in Hall. destruct Hall as [Hall H4].
  apply andb_true_iff in Hall. destruct Hall as [Hall H3].
  apply andb_true_iff in Hall. destruct Hall as [H1 H2].
  rewrite H1, H2, H3, H4. reflexivity.
Qed.

(** The assignment of one canonical IPv6 address succeeds. *)
Lemma IPv6_set_canonical (s : string) (h : IPv6Range.t) :
  canonical IPv6 s ->
  exists a l, IPv6Range.set_iprange s h =
              Some (Normal tt, mkIPRange (Some a) (Some a) (Some l)).
Proof.
  intros Hs.
  pose proof (hex_groups_no_dash 8 s (lower_groups_are_hex_groups 8 s Hs)) as Hd.
  destruct (IPv6_format_parse s Hs) as [a [E [Ha _]]].
  destruct (decomposer_correct IPv6 a a [] ltac:(lia) ltac:(simpl; lia))
    as [l [_ [_ [_ [Em _]]]]].
  simpl in Em.
  exists a, (map (subnet_text _toIPv6AddrString) l).
  unfold IPv6Range.set_iprange, range_array. rewrite Hd.
  rewrite (proj2 (isIPv6Addr_iff s) Hs). cbn [negb orb]. rewrite E.
  rewrite Z.ltb_irrefl. rewrite Em. reflexivity.
Qed.

(** * The claim on the IPv6 address check *)

(** C8, as the source has it.  Of the strings of eight colon-separated
    groups of four hex digits the check accepts those whose digits are
    decimal digits and lowercase letters, and the assignment of such an
    address succeeds; a string with one of the letters A to F is rejected
    and its assignment fails with the address error, the object being left
    as it was. *)
Theorem C8_lowercase_groups_accepted (s : string) :
  groups 8 (group_of hex_digit) ":" s ->
  (_isIPv6Addr s = true <-> canonical IPv6 s) /\
  (canonical IPv6 s ->
   forall h, exists h', IPv6Range.set_iprange s h = Some (Normal tt, h')) /\
  (has_upper_hex s = true ->
   _isIPv6Addr s = false /\
   forall h, IPv6Range.set_iprange s h = Some (Throw IPRangeAddressError, h)).
Proof.
  intros Hg. split; [apply isIPv6Addr_iff | split].
  - intros Hs h. destruct (IPv6_set_canonical s h Hs) as [a [l E]].
    eexists. exact E.
  - intros Hu.
    assert (_isIPv6Addr s = false) as Hrej.
    { destruct (_isIPv6Addr s) eqn:E; [| reflexivity].
      apply isIPv6Addr_iff, canonical_no_upper in E. congruence. }
    split; [exact Hrej|]. intros h.
    unfold IPv6Range.set_iprange, range_array.
    rewrite (hex_groups_no_dash 8 s Hg), Hrej. reflexivity.
Qed.

Lemma C8_witness :
  groups 8 (group_of hex_digit) ":" "2001:0db8:0000:0000:0000:0000:0000:0001" /\
  (_isIPv6Addr "2001:0db8:0000:0000:0000:0000:0000:0001" = true <->
   canonical IPv6 "2001:0db8:0000:0000:0000:0000:0000:0001") /\
  (canonical IPv6 "2001:0db8:0000:0000:0000:0000:0000:0001" ->
   forall h, exists h',
     IPv6Range.set_iprange "2001:0db8:0000:0000:0000:0000:0000:0001" h =
     Some (Normal tt, h')) /\
  (has_upper_hex "2001:0db8:0000:0000:0000:0000:0000:0001" = true ->
   _isIPv6Addr "2001:0db8:0000:0000:0000:0000:0000:0001" = false /\
   forall h, IPv6Range.set_iprange "2001:0db8:0000:0000:0000:0000:0000:0001" h =
             Some (Throw IPRangeAddressError, h)).
Proof.
  assert (groups 8 (group_of hex_digit) ":" "2001:0db8:0000:0000:0000:0000:0000:0001")
    as Hg.
  { exists ["2001"; "0db8"; "0000"; "0000"; "0000"; "0000"; "0000"; "0001"]%string.
    repeat split. }
  split; [exact Hg|].
  apply (C8_lowercase_groups_accepted "2001:0db8:0000:0000:0000:0000:0000:0001" Hg).
Defined.

(** The claim as the specification states it fails on an address written
    with capital letters: the check rejects it and the assignment throws. *)
Lemma C8_counterexample :
  groups 8 (group_of hex_digit) ":" "2001:0DB8:0000:0000:0000:0000:0000:0001" /\
  _isIPv6Addr "2001:0DB8:0000:0000:0000:0000:0000:0001" = false /\
  IPv6Range.set_iprange "2001:0DB8:0000:0000:0000:0000:0000:0001" new_IPRange =
  Some (Throw IPRangeAddressError, new_IPRange).
Proof.
  split.
  - exists ["2001"; "0DB8"; "0000"; "0000"; "0000"; "0000"; "0000"; "0001"]%string.
    repeat split.
  - split; vm_compute; reflexivity.
Qed.

(** * The range setters *)


Lemma range_array_two (a b : string) :
  contains "-" a = false -> contains "-" b = false ->
  range_array (a ++ "-" ++ b) = [a; b].
Proof.
  intros Ha Hb. unfold range_array.
  change (a ++ "-" ++ b)%string with (a ++ String "-" b)%string.
  rewrite contains_app. cbn [contains]. rewrite Ascii.eqb_refl, orb_true_r.
  rewrite split_app by exact Ha. rewrite split_nosep by exact Hb. reflexivity.
Qed.

(** * Where the source departs from its specification *)

(** A text whose components fail the address check leaves the object as it
    was: the setter throws before it writes to any field. *)
Lemma IPv4_set_rejected_keeps_state (s a0 a1 : string) (rest : list string)
      (h : IPv4Range.t) :
  range_array s = a0 :: a1 :: rest ->
  _isIPv4Addr a0 = false \/ _isIPv4Addr a1 = false ->
  IPv4Range.set_iprange s h = Some (Throw IPRangeAddressError, h).
Proof.
  intros E H. unfold IPv4Range.set_iprange. rewrite E.
  destruct H as [-> | ->]; [reflexivity|].
  rewrite orb_true_r. reflexivity.
Qed.

(** C2, at the input where the source fails it.  After a successful
    assignment, the assignment of an inverted range throws, and yet the
    range accessor now returns the rejected range, beside the subnets of
    the earlier one; on a fresh object the failed assignment leaves a range
    to read. *)
Theorem C2_inverted_range_overwrites_the_range :
  exists h1 h2 h3,
    IPv4Range.set_iprange "192.168.0.1-192.168.0.100" new_IPRange =
      Some (Normal tt, h1) /\
    IPv4Range.get_iprange h1 = Normal "192.168.0.1-192.168.0.100"%string /\
    IPv4Range.set_iprange "192.168.0.100-192.168.0.1" h1 =
      Some (Throw IPRangeAddressError, h2) /\
    IPv4Range.get_iprange h2 = Normal "192.168.0.100-192.168.0.1"%string /\
    get_subnet h2 = get_subnet h1 /\
    IPv4Range.set_iprange "192.168.0.100-192.168.0.1" new_IPRange =
      Some (Throw IPRangeAddressError, h3) /\
    IPv4Range.get_iprange h3 = Normal "192.168.0.100-192.168.0.1"%string /\
    get_subnet h3 = Throw IPRangeAddressError.
Proof.
  do 3 eexists.
  split; [vm_compute; reflexivity|].
  split; [vm_compute; reflexivity|].
  split; [vm_compute; reflexivity|].
  split; [vm_compute; reflexivity|].
  split; [vm_compute; reflexivity|].
  split; [vm_compute; reflexivity|].
  split; vm_compute; reflexivity.
Qed.

(** The same with the IPv6 setter. *)
Example IPv6_inverted_range_overwrites_the_range :
  exists h,
    IPv6Range.set_iprange
      "2001:0db8:0000:0000:0000:0000:0000:0064-2001:0db8:0000:0000:0000:0000:0000:0001"
      new_IPRange = Some (Throw IPRangeAddressError, h) /\
    IPv6Range.get_iprange h =
      Normal "2001:0db8:0000:0000:0000:0000:0000:0064-2001:0db8:0000:0000:0000:0000:0000:0001"%string /\
    get_subnet h = Throw IPRangeAddressError.
Proof.
  eexists. split; [vm_compute; reflexivity|]. split; vm_compute; reflexivity.
Qed.

(** C3, at inputs where the source fails it.  Groups that are no decimal
    numbers pass the IPv4 check: no digit at all parses to [NaN], which is
    neither [>= 256] nor [< 0], and what follows the leading digits is not
    looked at.  The assignment of such a text completes normally. *)
Theorem C3_non_decimal_octets_accepted :
  _isIPv4Addr "a.b.c.d" = true /\
  _isIPv4Addr "1x.2.3.4" = true /\
  _isIPv4Addr "..." = true /\
  IPv4Range.set_iprange "a.b.c.d" new_IPRange =
    Some (Normal tt, mkIPRange (Some NaN) (Some NaN) (Some [])) /\
  IPv4Range.get_iprange (mkIPRange (Some NaN) (Some NaN) (Some [])) =
    Normal "0.0.0.0-0.0.0.0"%string /\
  IPv4Range.set_iprange "1x.2.3.4" new_IPRange =
    Some (Normal tt,
          mkIPRange (Some (Num 16909060)) (Some (Num 16909060))
                    (Some ["1.2.3.4/32"%string])).
Proof. repeat split; vm_compute; reflexivity. Qed.

(** C7, at the input where the source fails it.  On an object that has
    completed no successful assignment the range accessor succeeds once an
    assignment has failed on an inverted range, while the subnet accessor
    fails. *)
Theorem C7_range_accessor_succeeds_after_failed_assignment :
  exists h,
    IPv4Range.set_iprange "192.168.0.100-192.168.0.1" new_IPRange =
      Some (Throw IPRangeAddressError, h) /\
    IPv4Range.get_iprange h = Normal "192.168.0.100-192.168.0.1"%string /\
    get_subnet h = Throw IPRangeAddressError.
Proof.
  eexists. split; [vm_compute; reflexivity|]. split; vm_compute; reflexivity.
Qed.

(** ** What holds of the accessors *)

(** The array of subnets is written by the assignments that complete
    normally, and by no other. *)
Lemma IPv4_set_subnet_field (s : string) (h h' : IPv4Range.t) (c : completion unit) :
  IPv4Range.set_iprange s h = Some (c, h') ->
  (c = Normal tt /\ _arraySubnet h' <> None) \/
  (c <> Normal tt /\ _arraySubnet h' = _arraySubnet h).
Proof.
  unfold IPv4Range.set_iprange.
  destruct (range_array s) as [|a0 [|a1 r]].
  - intros E. injection E as <- <-. right. split; [discriminate | reflexivity].
  - intros E. injection E as <- <-. right. split; [discriminate | reflexivity].
  - destruct (negb (_isIPv4Addr a0) || negb (_isIPv4Addr a1)).
    + intros E. injection E as <- <-. right. split; [discriminate | reflexivity].
    + destruct (num_gtb (_toIPv4AddrInteger a0) (_toIPv4AddrInteger a1)).
      * intros E. injection E as <- <-. right. split; [discriminate | reflexivity].
      * destruct (_makeIPv4SubnetFromRange _ _ []) as [l|]; [| discriminate].
        intros E. injection E as <- <-. left. split; [reflexivity | discriminate].
Qed.

Lemma IPv6_set_subnet_field (s : string) (h h' : IPv6Range.t) (c : completion unit) :
  IPv6Range.set_iprange s h = Some (c, h') ->
  (c = Normal tt /\ _arraySubnet h' <> None) \/
  (c <> Normal tt /\ _arraySubnet h' = _arraySubnet h).
Proof.
  unfold IPv6Range.set_iprange.
  destruct (range_array s) as [|a0 [|a1 r]].
  - intros E. injection E as <- <-. right. split; [discriminate | reflexivity].
  - intros E. injection E as <- <-. right. split; [discriminate | reflexivity].
  - destruct (negb (_isIPv6Addr a0) || negb (_isIPv6Addr a1)).
    + intros E. injection E as <- <-. right. split; [discriminate | reflexivity].
    + destruct (_toIPv6AddrInteger a0) as [x|].
      2:{ intros E. injection E as <- <-. right. split; [discriminate | reflexivity]. }
      destruct (_toIPv6AddrInteger a1) as [y|].
      2:{ intros E. injection E as <- <-. right. split; [discriminate | reflexivity]. }
      destruct (y <? x).
      * intros E. injection E as <- <-. right. split; [discriminate | reflexivity].
      * destruct (_makeIPv6SubnetFromRange _ _ []) as [l|]; [| discriminate].
        intros E. injection E as <- <-. left. split; [reflexivity | discriminate].
Qed.

(** The subnet accessor fails exactly on the objects no assignment to which
    has completed normally. *)
Lemma subnet_accessor_fails_iff {num : Type}
      (set : string -> IPRange num -> option (completion unit * IPRange num)) :
  (forall s h c h', set s h = Some (c, h') ->
     (c = Normal tt /\ _arraySubnet h' <> None) \/
     (c <> Normal tt /\ _arraySubnet h' = _arraySubnet h)) ->
  forall texts cs h,
    assign_all set texts new_IPRange = Some (cs, h) ->
    (get_subnet h = Throw IPRangeAddressError <-> ~ In (Normal tt) cs).
Proof.
  intros Hset.
  assert (forall texts h0 cs h,
            assign_all set texts h0 = Some (cs, h) ->
            (_arraySubnet h = None <-> _arraySubnet h0 = None /\ ~ In (Normal tt) cs))
    as Hgen.
  { induction texts as [|t texts IH]; intros h0 cs h E; simpl in E.
    - injection E as <- <-. simpl. tauto.
    - destruct (set t h0) as [[c h1]|] eqn:E1; [| discriminate].
      cbn [obind] in E.
      destruct (assign_all set texts h1) as [[cs' h2]|] eqn:E2; [| discriminate].
      cbn [obind] in E. injection E as <- <-.
      specialize (IH _ _ _ E2).
      destruct (Hset _ _ _ _ E1) as [[-> Hsome] | [Hc Hsame]].
      + simpl. split; [| tauto]. intros H. apply IH in H. tauto.
      + rewrite Hsame in IH. simpl. rewrite IH.
        split; [intros [H1 H2]; split; [exact H1 | intros [H|H]; [congruence | tauto]]
               | tauto]. }
  intros texts cs h E. specialize (Hgen texts new_IPRange cs h E).
  unfold get_subnet. destruct (_arraySubnet h) as [l|].
  - split; [discriminate|]. intros H.
    assert (@None (list string) = None /\ ~ In (Normal tt) cs) as H'
      by (split; [reflexivity | exact H]).
    apply Hgen in H'. discriminate H'.
  - split; [| reflexivity]. intros _. apply Hgen. reflexivity.
Qed.

Lemma IPv4_subnet_accessor_fails_iff (texts : list string)
      (cs : list (completion unit)) (h : IPv4Range.t) :
  assign_all IPv4Range.set_iprange texts new_IPRange = Some (cs, h) ->
  (get_subnet h = Throw IPRangeAddressError <-> ~ In (Normal tt) cs).
Proof.
  apply subnet_accessor_fails_iff.
  intros s0 h0 c h'. apply IPv4_set_subnet_field.
Qed.

Lemma IPv6_subnet_accessor_fails_iff (texts : list string)
      (cs : list (completion unit)) (h : IPv6Range.t) :
  assign_all IPv6Range.set_iprange texts new_IPRange = Some (cs, h) ->
  (get_subnet h = Throw IPRangeAddressError <-> ~ In (Normal tt) cs).
Proof.
  apply subnet_accessor_fails_iff.
  intros s0 h0 c h'. apply IPv6_set_subnet_field.
Qed.

(** The canonical IPv4 texts pass the check. *)
Lemma isIPv4Addr_canonical (s : string) : canonical IPv4 s -> _isIPv4Addr s = true.
Proof.
  intros [gs [Hlen [Hall ->]]].
  destruct gs as [|g1 [|g2 [|g3 [|g4 [|g5 r]]]]]; try discriminate Hlen.
  cbn [forallb] in Hall.
  repeat (apply andb_true_iff in Hall; destruct Hall as [? Hall]).
  destruct (octet_text g1) as [n1 [P1 [B1 [_ [C1 _]]]]]; [assumption|].
  destruct (octet_text g2) as [n2 [P2 [B2 [_ [C2 _]]]]]; [assumption|].
  destruct (octet_text g3) as [n3 [P3 [B3 [_ [C3 _]]]]]; [assumption|].
  destruct (octet_text g4) as [n4 [P4 [B4 [_ [C4 _]]]]]; [assumption|].
  unfold _isIPv4Addr. rewrite split_concat; [| discriminate |].
  - cbn [List.length Nat.eqb negb forallb]. rewrite P1, P2, P3, P4.
    unfold num_geb, num_ltb. lia.
  - cbn [forallb]. rewrite C1, C2, C3, C4. reflexivity.
Qed.

Lemma IPv6_set_rejected_keeps_state (s a0 a1 : string) (rest : list string)
      (h : IPv6Range.t) :
  range_array s = a0 :: a1 :: rest ->
  _isIPv6Addr a0 = false \/ _isIPv6Addr a1 = false ->
  IPv6Range.set_iprange s h = Some (Throw IPRangeAddressError, h).
Proof.
  intros E H. unfold IPv6Range.set_iprange. rewrite E.
  destruct H as [-> | ->]; [reflexivity|].
  rewrite orb_true_r. reflexivity.
Qed.

(** ** The setters always complete, normally or with the address error *)

Lemma split_contains (sep : ascii) (s : string) :
  contains sep s = true -> exists a b r, split sep s = a :: b :: r.
Proof.
  induction s as [|c s IH]; simpl; [discriminate|].
  destruct (Ascii.eqb c sep).
  - intros _. pose proof (split_nonempty sep s) as Hn.
    destruct (split sep s) as [|b r]; [congruence|]. eauto.
  - intros H. destruct (IH H) as [a [b [r ->]]]. eauto.
Qed.

(** The array the setters index has its two first elements. *)
Lemma range_array_two_components (s : string) :
  exists a0 a1 r, range_array s = a0 :: a1 :: r.
Proof.
  unfold range_array. destruct (contains "-" s) eqn:E.
  - apply split_contains. exact E.
  - eauto.
Qed.

(** What passes the IPv4 check converts to [NaN] or to an address. *)
Lemma isIPv4Addr_integer (a : string) :
  _isIPv4Addr a = true ->
  _toIPv4AddrInteger a = NaN \/
  exists z, _toIPv4AddrInteger a = Num z /\ 0 <= z < 2 ^ 32.
Proof.
  unfold _isIPv4Addr, _toIPv4AddrInteger.
  destruct (split "." a) as [|g1 [|g2 [|g3 [|g4 [|g5 r]]]]]; try discriminate.
  cbn [List.length Nat.eqb negb forallb]. unfold parseInt_at. cbn [nth_error].
  intros H.
  apply andb_true_iff in H. destruct H as [H1 H].
  apply andb_true_iff in H. destruct H as [H2 H].
  apply andb_true_iff in H. destruct H as [H3 H].
  apply andb_true_iff in H. destruct H as [H4 _].
  destruct (parseInt g1) as [|n1]; [left; reflexivity|].
  destruct (parseInt g2) as [|n2]; [left; reflexivity|].
  destruct (parseInt g3) as [|n3]; [left; reflexivity|].
  destruct (parseInt g4) as [|n4]; [left; reflexivity|].
  right. eexists. split; [reflexivity|].
  unfold num_geb, num_ltb in *. change (2 ^ 32) with 4294967296. lia.
Qed.

Lemma IPv4_set_returns (s : string) (h : IPv4Range.t) :
  exists c h', IPv4Range.set_iprange s h = Some (c, h') /\
               (c = Normal tt \/ c = Throw IPRangeAddressError).
Proof.
  unfold IPv4Range.set_iprange.
  destruct (range_array_two_components s) as [a0 [a1 [r ->]]].
  destruct (_isIPv4Addr a0) eqn:E0; [| cbn; eauto].
  destruct (_isIPv4Addr a1) eqn:E1; [| cbn; eauto].
  cbn [negb orb].
  destruct (isIPv4Addr_integer a0 E0) as [-> | [x [-> Hx]]];
    destruct (isIPv4Addr_integer a1 E1) as [-> | [y [-> Hy]]];
    unfold num_gtb, num_ltb.
  - cbn [_makeIPv4SubnetFromRange obind]. eauto.
  - cbn [_makeIPv4SubnetFromRange obind]. eauto.
  - cbn [_makeIPv4SubnetFromRange obind]. eauto.
  - destruct (Z.ltb_spec y x) as [|Eg]; [eauto|].
    destruct (decomposer_correct IPv4 x y [] ltac:(lia) ltac:(simpl; lia))
      as [l [_ [_ [_ [Em _]]]]].
    cbn [makeSubnetFromRange] in Em. rewrite Em. cbn [obind]. eauto.
Qed.

Lemma IPv6_set_returns (s : string) (h : IPv6Range.t) :
  exists c h', IPv6Range.set_iprange s h = Some (c, h') /\
               (c = Normal tt \/ c = Throw IPRangeAddressError).
Proof.
  unfold IPv6Range.set_iprange.
  destruct (range_array_two_components s) as [a0 [a1 [r ->]]].
  destruct (_isIPv6Addr a0) eqn:E0; [| cbn; eauto].
  destruct (_isIPv6Addr a1) eqn:E1; [| cbn; eauto].
  cbn [negb orb].
  destruct (IPv6_format_parse a0 (proj1 (isIPv6Addr_iff a0) E0)) as [x [-> [Hx _]]].
  destruct (IPv6_format_parse a1 (proj1 (isIPv6Addr_iff a1) E1)) as [y [-> [Hy _]]].
  destruct (Z.ltb_spec y x); [eauto|].
  destruct (decomposer_correct IPv6 x y [] ltac:(lia) ltac:(simpl; lia))
    as [l [_ [_ [_ [Em _]]]]].
  cbn [makeSubnetFromRange] in Em. rewrite Em. cbn [obind]. eauto.
Qed.

(** * Further properties of the decomposers *)

(** The loop on an empty interval: no iteration finds a block that fits. *)
Lemma for_loop_empty {Store : Type} (W : Z) (push : Z -> Z -> Store -> Store)
      (self : Z -> Z -> Store -> option Store) (n : nat) (i s e seg : Z) (sv : Store) :
  1 <= i -> Z.of_nat n = W - i + 1 -> (i <= W -> seg = 2 ^ (W - i)) ->
  0 <= s -> e < s ->
  exists seg', for_loop W push self n i (LoopState s e seg sv) =
               Some (n, LoopState s e seg' sv).
Proof.
  revert i seg. induction n as [|n IH]; intros i seg Hi Hn Hseg Hs He.
  - exists seg. simpl. destruct (Z.leb_spec i W); [lia | reflexivity].
  - cbn [for_loop]. destruct (Z.leb_spec i W) as [HiW|]; [|lia].
    specialize (Hseg HiW). subst seg.
    pose proof (seg_pos W i HiW) as Hp.
    unfold loop_body. cbn [intStartAddr intEndAddr intSegSize arraySave].
    destruct (round_up_bounds _ Hp s Hs) as [Hu _].
    assert (Z.quot (e + 1) (2 ^ (W - i)) * 2 ^ (W - i) - 1 < s) as Hd.
    { destruct (Z.le_gt_cases 0 (e + 1)) as [Hnn | Hneg].
      - destruct (round_down_bounds _ Hp e Hnn) as [Hd _]. lia.
      - assert (Z.quot (e + 1) (2 ^ (W - i)) <= Z.quot 0 (2 ^ (W - i))) as Hq
          by (apply Z.quot_le_mono; lia).
        rewrite Z.quot_0_l in Hq by lia. nia. }
    match goal with |- context [if ?a <=? ?b then _ else _] =>
      destruct (Z.leb_spec a b) as [Hbad|_]; [lia|] end.
    cbn [obind intStartAddr intEndAddr intSegSize arraySave].
    destruct (IH (i + 1) (Z.quot (2 ^ (W - i)) 2)) as [seg' E]; try lia.
    { intros. apply seg_halve. lia. }
    exists seg'. rewrite E. reflexivity.
Qed.

Lemma makeSubnetFromRange_make (fam : family) (s e : Z) (save : list string) :
  makeSubnetFromRange fam s e save =
  make (width fam) (2 ^ (width fam - 1)) (push_text (format_addr fam))
       (depth (width fam)) s e save.
Proof. destruct fam; reflexivity. Qed.

(** X1. A decomposer only appends to the array it is given: what it returns
    is that array followed by the texts it returns on the empty array. *)
Theorem X1_decomposer_only_appends (fam : family) (s e : Z) (save : list string) :
  0 <= s <= e -> e < 2 ^ width fam ->
  exists added,
    makeSubnetFromRange fam s e [] = Some added /\
    makeSubnetFromRange fam s e save = Some (save ++ added).
Proof.
  intros Hse He.
  destruct (decomposer_correct fam s e [] Hse He) as [l0 [_ [E0 [_ [M0 _]]]]].
  destruct (decomposer_correct fam s e save Hse He) as [l [_ [E [_ [M _]]]]].
  rewrite E0 in E. injection E as <-.
  exists (map (subnet_text (format_addr fam)) l0).
  split; [exact M0 | exact M].
Qed.

Lemma X1_witness :
  (0 <= 5 <= 9 /\ 9 < 2 ^ width IPv4) /\
  exists added,
    makeSubnetFromRange IPv4 5 9 [] = Some added /\
    makeSubnetFromRange IPv4 5 9 ["10.0.0.0/8"%string] =
      Some (["10.0.0.0/8"%string] ++ added).
Proof.
  split.
  - simpl. lia.
  - apply (X1_decomposer_only_appends IPv4 5 9 ["10.0.0.0/8"%string]); simpl; lia.
Defined.

(** X2. Given an inverted interval inside the address space,
    [0 <= e < s < 2^width], a decomposer emits nothing and calls itself on
    nothing: its loop runs [width] times without entering the branch, and
    it returns the array as it was. *)
Theorem X2_inverted_interval_emits_nothing (fam : family) (s e : Z)
        (save : list string) :
  0 <= e -> e < s -> s < 2 ^ width fam ->
  makeSubnetFromRange fam s e save = Some save /\
  makeSubnetFromRange_traced fam s e save =
    Some (Z.to_nat (width fam), [], save).
Proof.
  intros He0 He _. pose proof (width_pos fam) as HW. split.
  - rewrite makeSubnetFromRange_make. unfold depth. rewrite make_S.
    destruct (for_loop_empty (width fam) (push_text (format_addr fam))
                (make (width fam) (2 ^ (width fam - 1)) (push_text (format_addr fam))
                      (Z.to_nat (width fam)))
                (Z.to_nat (width fam)) 1 s e (2 ^ (width fam - 1)) save)
      as [seg' E]; try lia.
    rewrite E. reflexivity.
  - unfold makeSubnetFromRange_traced, depth, make_traced.
    rewrite first_segment_pow.
    match goal with
    | |- context [for_loop ?W ?p ?self ?n ?i (LoopState ?a ?b ?c ?sv)] =>
        destruct (for_loop_empty W p self n i a b c sv) as [seg' E]; try lia
    end.
    unfold call_log in *. rewrite E. reflexivity.
Qed.

Lemma X2_witness :
  (0 <= 3232235521 /\ 3232235521 < 3232235620 /\ 3232235620 < 2 ^ width IPv4) /\
  makeSubnetFromRange IPv4 3232235620 3232235521 [] = Some [] /\
  makeSubnetFromRange_traced IPv4 3232235620 3232235521 [] =
    Some (Z.to_nat (width IPv4), [], []).
Proof.
  split.
  - simpl. lia.
  - apply (X2_inverted_interval_emits_nothing IPv4 3232235620 3232235521 []);
      simpl; lia.
Defined.

(** A block is the tiling by maximal blocks of its own interval. *)
Lemma good_block (W b p : Z) :
  1 <= p <= W -> b mod 2 ^ (W - p) = 0 ->
  good W b (b + 2 ^ (W - p) - 1) [(b, p)].
Proof.
  intros Hp Hb. pose proof (seg_pos W p ltac:(lia)) as Hq. split.
  - constructor; [exact Hp | exact Hb | lia |]. apply tiles_nil.
  - constructor; [| constructor]. right. simpl. intros [H1 H2].
    replace (W - p + 1) with (Z.succ (W - p)) in * by lia.
    rewrite Z.pow_succ_r in * by lia. nia.
Qed.

(** X3. A range that is itself a CIDR block of prefix length at least 1
    gives that block alone. *)
Theorem X3_block_gives_itself (fam : family) (b p : Z) :
  1 <= p <= width fam -> 0 <= b -> b mod 2 ^ (width fam - p) = 0 ->
  b + 2 ^ (width fam - p) - 1 < 2 ^ width fam ->
  makeSubnetFromRange fam b (b + 2 ^ (width fam - p) - 1) [] =
  Some [subnet_text (format_addr fam) (b, p)].
Proof.
  intros Hp Hb Hal Hlt.
  pose proof (seg_pos (width fam) p ltac:(lia)) as Hq.
  destruct (decomposer_correct fam b (b + 2 ^ (width fam - p) - 1) []
              ltac:(lia) Hlt) as [l [_ [_ [_ [M [[Ht Hm] _]]]]]].
  destruct (good_block (width fam) b p Hp Hal) as [Ht' Hm'].
  rewrite M. f_equal.
  rewrite (good_unique (width fam) b (b + 2 ^ (width fam - p) - 1)
             b (b + 2 ^ (width fam - p) - 1) l [(b, p)] Ht Ht' Hm Hm');
    [reflexivity | lia | lia].
Qed.

Lemma X3_witness :
  (1 <= 24 <= width IPv4 /\ 0 <= 3232235520 /\
   3232235520 mod 2 ^ (width IPv4 - 24) = 0 /\
   3232235520 + 2 ^ (width IPv4 - 24) - 1 < 2 ^ width IPv4) /\
  makeSubnetFromRange IPv4 3232235520 (3232235520 + 2 ^ (width IPv4 - 24) - 1) [] =
  Some [subnet_text (format_addr IPv4) (3232235520, 24)].
Proof.
  split.
  - simpl. repeat split; try lia; reflexivity.
  - apply (X3_block_gives_itself IPv4 3232235520 24);
      simpl; try lia; reflexivity.
Defined.

(** ** How many subnets *)

Lemma sorted_filter (f : subnet -> bool) (l : list subnet) :
  StronglySorted Z.lt (map fst l) -> StronglySorted Z.lt (map fst (filter f l)).
Proof.
  induction l as [|x l IH]; simpl; intros H; [constructor|].
  apply StronglySorted_inv in H. destruct H as [Hs Hall].
  destruct (f x); [| exact (IH Hs)].
  simpl. constructor; [exact (IH Hs)|].
  rewrite Forall_forall in *. intros y Hy. apply Hall.
  apply in_map_iff in Hy. destruct Hy as [z [<- Hz]].
  apply filter_In in Hz. apply in_map. apply Hz.
Qed.

(** Of three aligned blocks of one size inside the interval, the middle one
    is not maximal. *)
Lemma middle_not_maximal (W s e p b1 b2 b3 : Z) :
  1 <= p <= W -> 0 <= s -> e < 2 ^ W ->
  b1 mod 2 ^ (W - p) = 0 -> b2 mod 2 ^ (W - p) = 0 -> b3 mod 2 ^ (W - p) = 0 ->
  s <= b1 -> b1 < b2 -> b2 < b3 -> b3 + 2 ^ (W - p) - 1 <= e ->
  ~ maximal W s e (b2, p).
Proof.
  intros Hp Hs He M1 M2 M3 Hs1 H12 H23 H3e.
  pose proof (seg_pos W p ltac:(lia)) as Hq.
  apply Z.mod_divide in M1, M2, M3; try lia.
  destruct M1 as [m1 E1], M2 as [m2 E2], M3 as [m3 E3].
  assert (m1 < m2) by nia. assert (m2 < m3) by nia.
  intros [H1 | Hnf]; simpl in *.
  - subst p. replace (2 ^ W) with (2 * 2 ^ (W - 1)) in He
      by (rewrite <- Z.pow_succ_r by lia; f_equal; lia).
    nia.
  - apply Hnf. clear Hnf.
    replace (W - p + 1) with (Z.succ (W - p)) by lia.
    rewrite Z.pow_succ_r by lia.
    set (Q := 2 ^ (W - p)) in *.
    assert (b2 / (2 * Q) = m2 / 2) as ->.
    { subst b2. rewrite (Z.mul_comm 2 Q), <- Z.div_div by lia.
      rewrite Z.div_mul by lia. reflexivity. }
    pose proof (Z.div_mod m2 2 ltac:(lia)) as D.
    pose proof (Z.mod_pos_bound m2 2 ltac:(lia)) as B.
    split; nia.
Qed.

Lemma good_two_per_prefix (W s e p : Z) (l : list subnet) :
  0 <= s -> e < 2 ^ W -> good W s e l ->
  (List.length (with_prefix p l) <= 2)%nat.
Proof.
  intros Hs He [Ht Hm].
  set (fl := with_prefix p l).
  assert (StronglySorted Z.lt (map fst fl)) as Hsort
    by (apply sorted_filter, (tiles_sorted W s e l Ht)).
  assert (forall x, In x fl -> In x l /\ snd x = p) as Hin.
  { intros x Hx. apply filter_In in Hx. destruct Hx as [Hx Hp].
    split; [exact Hx | apply Z.eqb_eq; exact Hp]. }
  clearbody fl.
  destruct fl as [|[b1 p1] [|[b2 p2] [|[b3 p3] r]]]; simpl; try lia.
  exfalso.
  destruct (Hin (b1, p1) ltac:(simpl; auto)) as [I1 P1].
  destruct (Hin (b2, p2) ltac:(simpl; auto)) as [I2 P2].
  destruct (Hin (b3, p3) ltac:(simpl; auto)) as [I3 P3].
  simpl in P1, P2, P3. subst p1 p2 p3.
  destruct (tiles_In _ _ _ _ _ _ Ht I1) as [A1 [_ [Hp M1]]].
  destruct (tiles_In _ _ _ _ _ _ Ht I2) as [_ [_ [_ M2]]].
  destruct (tiles_In _ _ _ _ _ _ Ht I3) as [_ [A3 [_ M3]]].
  simpl in Hsort.
  apply StronglySorted_inv in Hsort. destruct Hsort as [Hs1 Hall1].
  apply StronglySorted_inv in Hs1. destruct Hs1 as [_ Hall2].
  apply Forall_inv in Hall1, Hall2.
  apply (middle_not_maximal W s e p b1 b2 b3); try assumption.
  rewrite Forall_forall in Hm. apply Hm. exact I2.
Qed.

(** X4. The emitted list holds at most two subnets of any one prefix
    length. *)
Theorem X4_at_most_two_per_prefix (fam : family) (s e p : Z) :
  0 <= s <= e -> e < 2 ^ width fam ->
  exists l,
    makeSubnetFromRange fam s e [] = Some (map (subnet_text (format_addr fam)) l) /\
    subnets (width fam) (depth (width fam)) s e = Some l /\
    (List.length (with_prefix p l) <= 2)%nat.
Proof.
  intros Hse He.
  destruct (decomposer_correct fam s e [] Hse He) as [l [_ [E [_ [M [Hg _]]]]]].
  exists l. split; [exact M | split; [exact E |]].
  apply good_two_per_prefix with (W := width fam) (s := s) (e := e);
    [lia | exact He | exact Hg].
Qed.

Lemma X4_witness :
  (0 <= 3232235521 <= 3232235620 /\ 3232235620 < 2 ^ width IPv4) /\
  exists l,
    makeSubnetFromRange IPv4 3232235521 3232235620 [] =
      Some (map (subnet_text (format_addr IPv4)) l) /\
    subnets (width IPv4) (depth (width IPv4)) 3232235521 3232235620 = Some l /\
    (List.length (with_prefix 27 l) <= 2)%nat.
Proof.
  split.
  - simpl. lia.
  - apply (X4_at_most_two_per_prefix IPv4 3232235521 3232235620 27); simpl; lia.
Defined.

(** A list of numbers from 1 to [n], none of them more than twice, has at
    most [2 n] elements. *)
Lemma length_two_each (n : nat) (m : list Z) :
  Forall (fun x => 1 <= x <= Z.of_nat n) m ->
  (forall p : Z, (List.length (filter (fun x => (x =? p)%Z) m) <= 2)%nat) ->
  (List.length m <= 2 * n)%nat.
Proof.
  revert m. induction n as [|n IH]; intros m Hall Hcount.
  - destruct m as [|x m]; [simpl; lia|].
    inversion Hall as [| ? ? Hx _]; subst. lia.
  - set (top := Z.of_nat (S n)).
    assert (List.length m =
            (List.length (filter (fun x => (x =? top)%Z) m) +
             List.length (filter (fun x => negb (x =? top)%Z) m))%nat) as Esplit.
    { clear. induction m as [|x m IHm]; [reflexivity|].
      simpl. destruct (x =? top)%Z; simpl; lia. }
    specialize (Hcount top) as Htop.
    assert (List.length (filter (fun x => negb (x =? top)%Z) m) <= 2 * n)%nat; [| lia].
    apply IH.
    + rewrite Forall_forall in *. intros x Hx. apply filter_In in Hx.
      destruct Hx as [Hx Hne]. specialize (Hall x Hx).
      apply negb_true_iff, Z.eqb_neq in Hne. unfold top in Hne. lia.
    + intros p. specialize (Hcount p).
      assert (forall l : list Z,
                (List.length (filter (fun x => (x =? p)%Z)
                                (filter (fun x => negb (x =? top)%Z) l)) <=
                 List.length (filter (fun x => (x =? p)%Z) l))%nat) as Hle.
      { clear. induction l as [|x l IHl]; [reflexivity|].
        simpl. destruct (x =? top)%Z; simpl; destruct (x =? p)%Z; simpl; lia. }
      specialize (Hle m). lia.
Qed.

Lemma with_prefix_map (p : Z) (l : list subnet) :
  List.length (filter (fun x => (x =? p)%Z) (map snd l)) = List.length (with_prefix p l).
Proof.
  unfold with_prefix. induction l as [|x l IH]; [reflexivity|].
  simpl. destruct (snd x =? p); simpl; lia.
Qed.

(** X5. The emitted list has at most twice as many subnets as the address
    has bits. *)
Theorem X5_at_most_twice_width_subnets (fam : family) (s e : Z) :
  0 <= s <= e -> e < 2 ^ width fam ->
  exists texts,
    makeSubnetFromRange fam s e [] = Some texts /\
    Z.of_nat (List.length texts) <= 2 * width fam.
Proof.
  intros Hse He.
  destruct (decomposer_correct fam s e [] Hse He) as [l [_ [_ [_ [M [Hg _]]]]]].
  exists (map (subnet_text (format_addr fam)) l). split; [exact M|].
  rewrite length_map.
  pose proof (width_pos fam) as HW.
  assert (List.length (map snd l) <= 2 * Z.to_nat (width fam))%nat as Hlen;
    [| rewrite length_map in Hlen; apply Nat2Z.inj_le in Hlen;
       rewrite Nat2Z.inj_mul, Z2Nat.id in Hlen by lia; exact Hlen].
  apply length_two_each.
  - destruct Hg as [Ht _]. pose proof (tiles_cidr _ _ _ _ Ht) as Hc.
    rewrite Forall_forall in *. intros x Hx. apply in_map_iff in Hx.
    destruct Hx as [sn [<- Hsn]]. destruct (Hc sn Hsn) as [Hp _]. lia.
  - intros p. rewrite with_prefix_map.
    apply good_two_per_prefix with (W := width fam) (s := s) (e := e);
      [lia | exact He | exact Hg].
Qed.

Lemma X5_witness :
  (0 <= 1 <= 2 ^ 32 - 2 /\ 2 ^ 32 - 2 < 2 ^ width IPv4) /\
  exists texts,
    makeSubnetFromRange IPv4 1 (2 ^ 32 - 2) [] = Some texts /\
    Z.of_nat (List.length texts) <= 2 * width IPv4.
Proof.
  split.
  - simpl. lia.
  - apply (X5_at_most_twice_width_subnets IPv4 1 (2 ^ 32 - 2)); simpl; lia.
Defined.

(** ** How many addresses *)

Lemma tiles_total_size (W s e : Z) (l : list subnet) :
  tiles W s e l -> total_size W l = e - s + 1.
Proof.
  induction 1 as [s | b p e l Hp Ha Hb Ht IH]; simpl; [lia|].
  unfold block_size at 1. simpl. fold (total_size W l). rewrite IH. lia.
Qed.

(** X6. The emitted subnets hold together as many addresses as the range
    has: the sum of their block sizes is [e - s + 1]. *)
Theorem X6_block_sizes_sum_to_range (fam : family) (s e : Z) :
  0 <= s <= e -> e < 2 ^ width fam ->
  exists l,
    makeSubnetFromRange fam s e [] = Some (map (subnet_text (format_addr fam)) l) /\
    subnets (width fam) (depth (width fam)) s e = Some l /\
    total_size (width fam) l = e - s + 1.
Proof.
  intros Hse He.
  destruct (decomposer_correct fam s e [] Hse He) as [l [_ [E [_ [M [[Ht _] _]]]]]].
  exists l. split; [exact M | split; [exact E |]].
  apply tiles_total_size. exact Ht.
Qed.

Lemma X6_witness :
  (0 <= 3232235521 <= 3232235620 /\ 3232235620 < 2 ^ width IPv4) /\
  exists l,
    makeSubnetFromRange IPv4 3232235521 3232235620 [] =
      Some (map (subnet_text (format_addr IPv4)) l) /\
    subnets (width IPv4) (depth (width IPv4)) 3232235521 3232235620 = Some l /\
    total_size (width IPv4) l = 3232235620 - 3232235521 + 1.
Proof.
  split.
  - simpl. lia.
  - apply (X6_block_sizes_sum_to_range IPv4 3232235521 3232235620); simpl; lia.
Defined.

(** ** The two decomposers on the same interval *)

Lemma tiles_shift (s e : Z) (l : list subnet) :
  tiles 32 s e l -> tiles 128 s e (map (shift_prefix 96) l).
Proof.
  induction 1 as [s | b p e l Hp Ha Hb Ht IH]; cbn [map]; [constructor|].
  unfold shift_prefix at 1. cbn [fst snd].
  replace (32 - p) with (128 - (p + 96)) in * by lia.
  constructor; [lia | exact Ha | exact Hb | exact IH].
Qed.

Lemma maximal_shift (s e : Z) (sn : subnet) :
  0 <= s -> e < 2 ^ 32 -> ~ (s = 0 /\ e = 2 ^ 32 - 1) ->
  maximal 32 s e sn -> maximal 128 s e (shift_prefix 96 sn).
Proof.
  intros Hs He Hfull Hm. destruct sn as [b p]. unfold maximal, shift_prefix in *.
  cbn [fst snd] in *. right.
  replace (128 - (p + 96) + 1) with (32 - p + 1) by lia.
  destruct Hm as [-> | Hm]; [| exact Hm].
  change (2 ^ (32 - 1 + 1)) with 4294967296.
  change (2 ^ 32) with 4294967296 in *.
  intros [H1 H2]. apply Hfull. lia.
Qed.

(** X7. On an interval of IPv4 addresses other than the whole IPv4 space the
    IPv6 decomposer emits the blocks the IPv4 decomposer emits, each with 96
    added to its prefix length. *)
Theorem X7_IPv6_blocks_are_IPv4_blocks_shifted (s e : Z) :
  0 <= s <= e -> e < 2 ^ 32 -> ~ (s = 0 /\ e = 2 ^ 32 - 1) ->
  exists l,
    _makeIPv4SubnetFromRange (Num s) (Num e) [] =
      Some (map (subnet_text format_v4) l) /\
    _makeIPv6SubnetFromRange s e [] =
      Some (map (subnet_text _toIPv6AddrString) (map (shift_prefix 96) l)).
Proof.
  intros Hse He Hfull.
  destruct (decomposer_correct IPv4 s e [] Hse He) as [l [_ [_ [_ [M4 [[Ht Hm] _]]]]]].
  assert (e < 2 ^ width IPv6) as He6.
  { simpl. change (2 ^ 32) with 4294967296 in He.
    change (2 ^ 128) with 340282366920938463463374607431768211456. lia. }
  destruct (decomposer_correct IPv6 s e [] Hse He6)
    as [l6 [_ [_ [_ [M6 [[Ht6 Hm6] _]]]]]].
  exists l. split; [exact M4|].
  cbn [makeSubnetFromRange] in M6. rewrite M6. cbn [app format_addr].
  do 2 f_equal.
  apply good_unique with (W := 128) (S := s) (E := e) (s := s) (e := e);
    try lia; try assumption.
  - apply tiles_shift. exact Ht.
  - cbn [width] in Hm. rewrite Forall_forall in *. intros x Hx.
    apply in_map_iff in Hx. destruct Hx as [sn [<- Hsn]].
    apply maximal_shift; try lia; auto.
Qed.

Lemma X7_witness :
  (0 <= 3232235521 <= 3232235620 /\ 3232235620 < 2 ^ 32 /\
   ~ (3232235521 = 0 /\ 3232235620 = 2 ^ 32 - 1)) /\
  exists l,
    _makeIPv4SubnetFromRange (Num 3232235521) (Num 3232235620) [] =
      Some (map (subnet_text format_v4) l) /\
    _makeIPv6SubnetFromRange 3232235521 3232235620 [] =
      Some (map (subnet_text _toIPv6AddrString) (map (shift_prefix 96) l)).
Proof.
  split.
  - repeat split; lia.
  - apply (X7_IPv6_blocks_are_IPv4_blocks_shifted 3232235521 3232235620); lia.
Defined.

(** On the whole IPv4 space the two differ: two blocks of prefix length 1
    against one block of prefix length 96. *)
Example whole_IPv4_space_in_both :
  _makeIPv4SubnetFromRange (Num 0) (Num 4294967295) [] =
    Some ["0.0.0.0/1"; "128.0.0.0/1"]%string /\
  _makeIPv6SubnetFromRange 0 4294967295 [] =
    Some ["0000:0000:0000:0000:0000:0000:0000:0000/96"]%string.
Proof. split; vm_compute; reflexivity. Qed.

(** * Further properties of the conversions *)

Lemma band_255_any (x : number) :
  band x (Num 255) = Num (ToInt32 x mod 256).
Proof.
  unfold band. change (ToInt32 (Num 255)) with (Z.ones 8).
  rewrite Z.land_ones by lia. reflexivity.
Qed.

(** Whatever the Number, [_toIPv4AddrString] writes four octets. *)
Lemma toIPv4AddrString_canonical (n : number) :
  canonical IPv4 (_toIPv4AddrString n).
Proof.
  unfold _toIPv4AddrString. rewrite !band_255_any. cbn [num_toString].
  assert (forall x, 0 <= x mod 256 <= 255) as Hb.
  { intros x. pose proof (Z.mod_pos_bound x 256 ltac:(lia)). lia. }
  eexists [_; _; _; _]. split; [reflexivity|]. split; [| reflexivity].
  cbn [forallb].
  repeat match goal with
         | |- context [minimal_decimal_octet (toString 10 (?v mod 256))] =>
             rewrite (proj2 (proj2 (octet_value (v mod 256) (Hb v))))
         end.
  reflexivity.
Qed.

Lemma toIPv6AddrString_canonical (a : Z) : canonical IPv6 (_toIPv6AddrString a).
Proof.
  unfold _toIPv6AddrString, hextet. rewrite !land_65535.
  assert (forall x, 0 <= x mod 65536 < 65536) as Hb.
  { intros x. apply Z.mod_pos_bound. lia. }
  eexists [_; _; _; _; _; _; _; _]. split; [reflexivity|]. split; [| reflexivity].
  cbn [forallb].
  repeat match goal with
         | |- context [slice_last 4 ("000" ++ toString 16 (?v mod 65536))] =>
             change (slice_last 4 ("000" ++ toString 16 (v mod 65536)))
               with (hex4 (v mod 65536));
             rewrite (proj2 (proj2 (group_value (v mod 65536) (Hb v))))
         end.
  reflexivity.
Qed.

(** X8. What the formatters write is always a canonical text, whatever the
    integer, and it passes the address check of its family. *)
Theorem X8_formatted_text_is_canonical (fam : family) (a : Z) :
  canonical fam (format_addr fam a) /\ isAddr fam (format_addr fam a) = true.
Proof.
  destruct fam; cbn [format_addr isAddr].
  - pose proof (toIPv4AddrString_canonical (Num a)) as Hc.
    split; [exact Hc | apply isIPv4Addr_canonical; exact Hc].
  - pose proof (toIPv6AddrString_canonical a) as Hc.
    split; [exact Hc | apply isIPv6Addr_iff; exact Hc].
Qed.

Lemma hextet_mod (a d k : Z) :
  0 <= a -> 0 < d -> 0 < k ->
  340282366920938463463374607431768211456 = d * 65536 * k ->
  hextet (a mod 340282366920938463463374607431768211456) d = hextet a d.
Proof.
  intros Ha Hd Hk E. unfold hextet. rewrite !land_65535.
  pose proof (Z.mod_pos_bound a 340282366920938463463374607431768211456 ltac:(lia)).
  rewrite !Z.quot_div_nonneg by lia.
  do 3 f_equal.
  rewrite E. rewrite <- Z.mul_assoc.
  rewrite Z.rem_mul_r by lia.
  rewrite Z.mul_comm, Z.div_add by lia.
  rewrite (Z.div_small (a mod d) d) by (apply Z.mod_pos_bound; lia).
  rewrite Z.add_0_l.
  rewrite Z.rem_mul_r by lia.
  rewrite Z.mul_comm, Z.mod_add by lia.
  apply Z.mod_mod. lia.
Qed.

(** The formatters write the address modulo [2^width]: only the low
    [width] bits of a non-negative integer show in its text. *)
Lemma format_addr_mod (fam : family) (a : Z) :
  0 <= a -> format_addr fam (a mod 2 ^ width fam) = format_addr fam a.
Proof.
  intros Ha. destruct fam; cbn [format_addr width].
  - unfold format_v4, _toIPv4AddrString, band, ushr, ToInt32.
    assert (ToUint32 (Num (a mod 2 ^ 32)) = ToUint32 (Num a)) as ->
      by (unfold ToUint32; apply Z.mod_mod; lia).
    reflexivity.
  - change (2 ^ 128) with 340282366920938463463374607431768211456.
    unfold _toIPv6AddrString.
    rewrite (hextet_mod a 5192296858534827628530496329220096 1) by lia.
    rewrite (hextet_mod a 79228162514264337593543950336 65536) by lia.
    rewrite (hextet_mod a 1208925819614629174706176 4294967296) by lia.
    rewrite (hextet_mod a 18446744073709551616 281474976710656) by lia.
    rewrite (hextet_mod a 281474976710656 18446744073709551616) by lia.
    rewrite (hextet_mod a 4294967296 1208925819614629174706176) by lia.
    rewrite (hextet_mod a 65536 79228162514264337593543950336) by lia.
    rewrite (hextet_mod a 1 5192296858534827628530496329220096) by lia.
    reflexivity.
Qed.

Lemma parse_format_addr (fam : family) (a : Z) :
  0 <= a < 2 ^ width fam -> parse fam (format_addr fam a) = Some a.
Proof.
  intros Ha. destruct fam; cbn [parse format_addr width] in *.
  - unfold format_v4. rewrite IPv4_parse_format by exact Ha. reflexivity.
  - apply IPv6_parse_format. exact Ha.
Qed.

(** X9. Two non-negative integers are written as the same text exactly
    when they agree modulo [2^width]: the formatters show the low [width]
    bits of the integer and nothing else. *)
Theorem X9_texts_equal_iff_congruent (fam : family) (a b : Z) :
  0 <= a -> 0 <= b ->
  (format_addr fam a = format_addr fam b <->
   a mod 2 ^ width fam = b mod 2 ^ width fam).
Proof.
  intros Ha Hb.
  assert (0 < 2 ^ width fam) as Hw by (destruct fam; reflexivity).
  split.
  - intros E.
    rewrite <- (format_addr_mod fam a Ha), <- (format_addr_mod fam b Hb) in E.
    apply (f_equal (parse fam)) in E.
    rewrite !parse_format_addr in E by (apply Z.mod_pos_bound; exact Hw).
    injection E as E. exact E.
  - intros E. rewrite <- (format_addr_mod fam a Ha), E. apply format_addr_mod. exact Hb.
Qed.

Lemma X9_witness :
  (0 <= 4294967296 + 3232235521 /\ 0 <= 3232235521) /\
  (format_addr IPv4 (4294967296 + 3232235521) = format_addr IPv4 3232235521 <->
   (4294967296 + 3232235521) mod 2 ^ width IPv4 = 3232235521 mod 2 ^ width IPv4).
Proof.
  split.
  - lia.
  - apply (X9_texts_equal_iff_congruent IPv4 (4294967296 + 3232235521) 3232235521); lia.
Defined.

(** * Further properties of the two classes *)

Lemma canonical_no_dash (fam : family) (s : string) :
  canonical fam s -> contains "-" s = false.
Proof.
  destruct fam.
  - intros [gs [_ [Hall ->]]]. apply contains_concat; [reflexivity|].
    rewrite forallb_forall in *. intros g Hg. specialize (Hall g Hg).
    destruct (octet_text g Hall) as [n [_ [_ [_ [_ Hd]]]]]. rewrite Hd. reflexivity.
  - intros Hs. apply (hex_groups_no_dash 8). apply lower_groups_are_hex_groups. exact Hs.
Qed.

Lemma canonical_isAddr (fam : family) (s : string) :
  canonical fam s -> isAddr fam s = true.
Proof.
  destruct fam; cbn [isAddr].
  - apply isIPv4Addr_canonical.
  - apply isIPv6Addr_iff.
Qed.

Lemma parse_IPv4_Num (a : string) (x : Z) :
  parse IPv4 a = Some x -> _toIPv4AddrInteger a = Num x.
Proof.
  cbn [parse]. destruct (_toIPv4AddrInteger a); [discriminate|].
  intros E. injection E as ->. reflexivity.
Qed.

(** The assignment of a range of two canonical addresses, step by step. *)
Lemma IPv4_set_canonical_range (a b : string) (x y : Z) (h : IPv4Range.t) :
  canonical IPv4 a -> canonical IPv4 b ->
  _toIPv4AddrInteger a = Num x -> _toIPv4AddrInteger b = Num y ->
  IPv4Range.set_iprange (a ++ "-" ++ b) h =
  if y <? x
  then Some (Throw IPRangeAddressError,
             mkIPRange (Some (Num x)) (Some (Num y)) (_arraySubnet h))
  else match _makeIPv4SubnetFromRange (Num x) (Num y) [] with
       | Some subs =>
           Some (Normal tt, mkIPRange (Some (Num x)) (Some (Num y)) (Some subs))
       | None => None
       end.
Proof.
  intros Ha Hb Ex Ey. unfold IPv4Range.set_iprange.
  rewrite range_array_two by (apply (canonical_no_dash IPv4); assumption).
  rewrite (isIPv4Addr_canonical a Ha), (isIPv4Addr_canonical b Hb).
  cbn [negb orb]. rewrite Ex, Ey. unfold num_gtb, num_ltb, obind.
  destruct (y <? x); reflexivity.
Qed.

Lemma IPv6_set_canonical_range (a b : string) (x y : Z) (h : IPv6Range.t) :
  canonical IPv6 a -> canonical IPv6 b ->
  _toIPv6AddrInteger a = Some x -> _toIPv6AddrInteger b = Some y ->
  IPv6Range.set_iprange (a ++ "-" ++ b) h =
  if y <? x
  then Some (Throw IPRangeAddressError,
             mkIPRange (Some x) (Some y) (_arraySubnet h))
  else match _makeIPv6SubnetFromRange x y [] with
       | Some subs => Some (Normal tt, mkIPRange (Some x) (Some y) (Some subs))
       | None => None
       end.
Proof.
  intros Ha Hb Ex Ey. unfold IPv6Range.set_iprange.
  rewrite range_array_two by (apply (canonical_no_dash IPv6); assumption).
  rewrite (proj2 (isIPv6Addr_iff a) Ha), (proj2 (isIPv6Addr_iff b) Hb).
  cbn [negb orb]. rewrite Ex, Ey. unfold obind.
  destruct (y <? x); reflexivity.
Qed.

(** What passes the IPv6 check converts to an address: [BigInt] does not
    throw on it. *)
Lemma isIPv6Addr_integer (a : string) :
  _isIPv6Addr a = true ->
  exists z, _toIPv6AddrInteger a = Some z /\ 0 <= z < 2 ^ 128.
Proof.
  intros H. destruct (IPv6_format_parse a (proj1 (isIPv6Addr_iff a) H)) as [z [E [Hz _]]].
  exists z. split; assumption.
Qed.

(** An assignment leaves the object as it was or with its two bounds set. *)
Lemma IPv4_set_bounds (s : string) (h h' : IPv4Range.t) (c : completion unit) :
  IPv4Range.set_iprange s h = Some (c, h') ->
  h' = h \/ exists x y, _intStartAddr h' = Some x /\ _intEndAddr h' = Some y.
Proof.
  unfold IPv4Range.set_iprange.
  destruct (range_array s) as [|a0 [|a1 r]].
  - intros E. injection E as <- <-. left. reflexivity.
  - intros E. injection E as <- <-. left. reflexivity.
  - destruct (negb (_isIPv4Addr a0) || negb (_isIPv4Addr a1)).
    + intros E. injection E as <- <-. left. reflexivity.
    + destruct (num_gtb (_toIPv4AddrInteger a0) (_toIPv4AddrInteger a1)).
      * intros E. injection E as <- <-. right. do 2 eexists. split; reflexivity.
      * destruct (_makeIPv4SubnetFromRange _ _ []) as [l|]; [| discriminate].
        intros E. injection E as <- <-. right. do 2 eexists. split; reflexivity.
Qed.

Lemma IPv6_set_bounds (s : string) (h h' : IPv6Range.t) (c : completion unit) :
  IPv6Range.set_iprange s h = Some (c, h') ->
  h' = h \/ exists x y, _intStartAddr h' = Some x /\ _intEndAddr h' = Some y.
Proof.
  unfold IPv6Range.set_iprange.
  destruct (range_array s) as [|a0 [|a1 r]].
  - intros E. injection E as <- <-. left. reflexivity.
  - intros E. injection E as <- <-. left. reflexivity.
  - destruct (_isIPv6Addr a0) eqn:E0;
      [| intros E; injection E as <- <-; left; reflexivity].
    destruct (_isIPv6Addr a1) eqn:E1;
      [| intros E; injection E as <- <-; left; reflexivity].
    cbn [negb orb].
    destruct (isIPv6Addr_integer a0 E0) as [x [-> _]].
    destruct (isIPv6Addr_integer a1 E1) as [y [-> _]].
    destruct (y <? x).
    + intros E. injection E as <- <-. right. do 2 eexists. split; reflexivity.
    + destruct (_makeIPv6SubnetFromRange _ _ []) as [l|]; [| discriminate].
      intros E. injection E as <- <-. right. do 2 eexists. split; reflexivity.
Qed.

Lemma set_bounds (fam : family) (s : string) (h h' : IPRange (num_of fam))
      (c : completion unit) :
  set_iprange_of fam s h = Some (c, h') ->
  h' = h \/ exists x y, _intStartAddr h' = Some x /\ _intEndAddr h' = Some y.
Proof.
  destruct fam; [apply IPv4_set_bounds | apply IPv6_set_bounds].
Qed.

Lemma get_iprange_bounds (fam : family) (h : IPRange (num_of fam)) :
  (exists x y, _intStartAddr h = Some x /\ _intEndAddr h = Some y) ->
  exists r, get_iprange_of fam h = Normal r.
Proof.
  intros [x [y [Ex Ey]]].
  destruct fam; cbn [get_iprange_of num_of] in *;
    unfold IPv4Range.get_iprange, IPv6Range.get_iprange; rewrite Ex, Ey; eauto.
Qed.

Lemma set_subnet_field (fam : family) (s : string) (h h' : IPRange (num_of fam))
      (c : completion unit) :
  set_iprange_of fam s h = Some (c, h') ->
  (c = Normal tt /\ _arraySubnet h' <> None) \/
  (c <> Normal tt /\ _arraySubnet h' = _arraySubnet h).
Proof.
  destruct fam; [apply IPv4_set_subnet_field | apply IPv6_set_subnet_field].
Qed.

(** * The claim on the separators of a range *)



(** An example of C10: the third address plays no part, and the range and
    the subnets are those of the first two. *)
Example set_three_components :
  IPv4Range.set_iprange "192.168.0.1-192.168.0.100-10.0.0.0" new_IPRange =
    IPv4Range.set_iprange "192.168.0.1-192.168.0.100" new_IPRange /\
  exists h,
    IPv4Range.set_iprange "192.168.0.1-192.168.0.100-10.0.0.0" new_IPRange =
      Some (Normal tt, h) /\
    IPv4Range.get_iprange h = Normal "192.168.0.1-192.168.0.100"%string.
Proof.
  split; [vm_compute; reflexivity|].
  exists (mkIPRange (Some (Num 3232235521)) (Some (Num 3232235620))
                    (Some ["192.168.0.1/32"; "192.168.0.2/31"; "192.168.0.4/30";
                           "192.168.0.8/29"; "192.168.0.16/28"; "192.168.0.32/27";
                           "192.168.0.64/27"; "192.168.0.96/30";
                           "192.168.0.100/32"]%string)).
  split; vm_compute; reflexivity.
Qed.

(** X10. An assignment always completes, and in one of two ways: normally,
    or by throwing the address error.  Whatever the text and the object,
    the decomposer returns, no index of the split text is missing and
    [BigInt] is given nothing it rejects. *)
Theorem X10_assignment_completes (fam : family) (s : string)
        (h : IPRange (num_of fam)) :
  exists c h', set_iprange_of fam s h = Some (c, h') /\
               (c = Normal tt \/ c = Throw IPRangeAddressError).
Proof.
  destruct fam; [apply IPv4_set_returns | apply IPv6_set_returns].
Qed.

(** Assignments none of which completes normally leave the subnet accessor
    as it was. *)
Lemma failed_assignments_keep_subnets (fam : family) (texts : list string)
      (cs : list (completion unit)) (h h' : IPRange (num_of fam)) :
  assign_all (set_iprange_of fam) texts h = Some (cs, h') ->
  ~ In (Normal tt) cs -> get_subnet h' = get_subnet h.
Proof.
  revert cs h h'. induction texts as [|t texts IH]; intros cs h h' E Hn;
    cbn [assign_all] in E.
  - injection E as <- <-. reflexivity.
  - destruct (set_iprange_of fam t h) as [[c h1]|] eqn:E1; [| discriminate].
    cbn [obind] in E.
    destruct (assign_all (set_iprange_of fam) texts h1) as [[cs' h2]|] eqn:E2;
      [| discriminate].
    cbn [obind] in E. injection E as <- <-.
    rewrite (IH cs' h1 h2 E2) by (intros H; apply Hn; right; exact H).
    destruct (set_subnet_field fam t h h1 c E1) as [[-> _] | [_ Hsame]].
    + exfalso. apply Hn. left. reflexivity.
    + unfold get_subnet. rewrite Hsame. reflexivity.
Qed.

(** X11. After any sequence of assignments to a new object, the subnet
    accessor throws exactly when none of the assignments completed
    normally; and whatever assignments follow, as long as none of them
    completes normally the subnet accessor goes on answering what it
    answers now. *)
Theorem X11_subnets_readable_iff_assigned (fam : family) (texts : list string)
        (cs : list (completion unit)) (h : IPRange (num_of fam)) :
  assign_all (set_iprange_of fam) texts new_IPRange = Some (cs, h) ->
  (get_subnet h = Throw IPRangeAddressError <-> ~ In (Normal tt) cs) /\
  (forall more cs' h',
     assign_all (set_iprange_of fam) more h = Some (cs', h') ->
     ~ In (Normal tt) cs' -> get_subnet h' = get_subnet h).
Proof.
  intros E. split.
  - revert E. apply subnet_accessor_fails_iff.
    intros s0 h0 c h'. apply set_subnet_field.
  - intros more cs' h'. apply failed_assignments_keep_subnets.
Qed.

Lemma X11_witness :
  assign_all (set_iprange_of IPv4) ["x"; "192.168.0.1-192.168.0.2"]%string
             new_IPRange =
    Some ([Throw IPRangeAddressError; Normal tt],
          mkIPRange (Some (Num 3232235521)) (Some (Num 3232235522))
                    (Some ["192.168.0.1/32"; "192.168.0.2/32"]%string)) /\
  (get_subnet (mkIPRange (Some (Num 3232235521)) (Some (Num 3232235522))
                         (Some ["192.168.0.1/32"; "192.168.0.2/32"]%string)) =
     Throw IPRangeAddressError <->
   ~ In (Normal tt) [Throw IPRangeAddressError; Normal tt]) /\
  (forall more cs' h',
     assign_all (set_iprange_of IPv4) more
                (mkIPRange (Some (Num 3232235521)) (Some (Num 3232235522))
                           (Some ["192.168.0.1/32"; "192.168.0.2/32"]%string)) =
       Some (cs', h') ->
     ~ In (Normal tt) cs' ->
     get_subnet h' =
     get_subnet (mkIPRange (Some (Num 3232235521)) (Some (Num 3232235522))
                           (Some ["192.168.0.1/32"; "192.168.0.2/32"]%string))).
Proof.
  split.
  - vm_compute. reflexivity.
  - apply (X11_subnets_readable_iff_assigned IPv4
             ["x"; "192.168.0.1-192.168.0.2"]%string).
    vm_compute. reflexivity.
Defined.

(** An example of X11: an inverted range assigned after a successful
    assignment leaves the subnets of the latter to be read. *)
Example subnets_kept_by_failed_assignment :
  exists h h',
    assign_all (set_iprange_of IPv4) ["192.168.0.1-192.168.0.2"]%string
               new_IPRange = Some ([Normal tt], h) /\
    assign_all (set_iprange_of IPv4) ["0.0.0.1-0.0.0.0"; "x"]%string h =
      Some ([Throw IPRangeAddressError; Throw IPRangeAddressError], h') /\
    get_subnet h' = Normal ["192.168.0.1/32"; "192.168.0.2/32"]%string.
Proof.
  exists (mkIPRange (Some (Num 3232235521)) (Some (Num 3232235522))
                    (Some ["192.168.0.1/32"; "192.168.0.2/32"]%string)),
         (mkIPRange (Some (Num 1)) (Some (Num 0))
                    (Some ["192.168.0.1/32"; "192.168.0.2/32"]%string)).
  split; [vm_compute; reflexivity|]. split; vm_compute; reflexivity.
Qed.

(** X12. After any sequence of assignments to a new object, the object is
    still as it was created or the range accessor returns a range; so the
    range can be read whenever the subnets can. *)
Theorem X12_range_readable_unless_fresh (fam : family) (texts : list string)
        (cs : list (completion unit)) (h : IPRange (num_of fam)) :
  assign_all (set_iprange_of fam) texts new_IPRange = Some (cs, h) ->
  (h = new_IPRange \/ exists r, get_iprange_of fam h = Normal r) /\
  (forall l, get_subnet h = Normal l -> exists r, get_iprange_of fam h = Normal r).
Proof.
  intros E.
  assert (forall texts h0 cs h,
            assign_all (set_iprange_of fam) texts h0 = Some (cs, h) ->
            h = h0 \/ exists x y, _intStartAddr h = Some x /\ _intEndAddr h = Some y)
    as Hgen.
  { clear. induction texts as [|t texts IH]; intros h0 cs h E; cbn [assign_all] in E.
    - injection E as <- <-. left. reflexivity.
    - destruct (set_iprange_of fam t h0) as [[c h1]|] eqn:E1; [| discriminate].
      cbn [obind] in E.
      destruct (assign_all (set_iprange_of fam) texts h1) as [[cs' h2]|] eqn:E2;
        [| discriminate].
      cbn [obind] in E. injection E as <- <-.
      destruct (IH _ _ _ E2) as [-> | Hb]; [| right; exact Hb].
      apply (set_bounds fam t h0 h1 c E1). }
  assert (h = new_IPRange \/ exists r, get_iprange_of fam h = Normal r) as Hh.
  { destruct (Hgen _ _ _ _ E) as [-> | Hb]; [left; reflexivity | right].
    apply get_iprange_bounds. exact Hb. }
  split; [exact Hh|].
  intros l Hl. destruct Hh as [-> | Hr]; [discriminate Hl | exact Hr].
Qed.

Lemma X12_witness :
  assign_all (set_iprange_of IPv4) ["x"; "0.0.0.1-0.0.0.0"]%string new_IPRange =
    Some ([Throw IPRangeAddressError; Throw IPRangeAddressError],
          mkIPRange (Some (Num 1)) (Some (Num 0)) None) /\
  (mkIPRange (Some (Num 1)) (Some (Num 0)) None = new_IPRange \/
   exists r, get_iprange_of IPv4
               (mkIPRange (Some (Num 1)) (Some (Num 0)) None) = Normal r) /\
  (forall l, get_subnet (mkIPRange (Some (Num 1)) (Some (Num 0)) None) =
             Normal l ->
             exists r, get_iprange_of IPv4
                         (mkIPRange (Some (Num 1)) (Some (Num 0)) None) =
                       Normal r).
Proof.
  split.
  - vm_compute. reflexivity.
  - apply (X12_range_readable_unless_fresh IPv4 ["x"; "0.0.0.1-0.0.0.0"]%string
             [Throw IPRangeAddressError; Throw IPRangeAddressError]).
    vm_compute. reflexivity.
Defined.

(** X13. An assignment that completes normally overwrites the whole
    object: the object it leaves does not depend on the object it was made
    to, and the same text is assigned to any other object with the same
    result. *)
Theorem X13_success_overwrites_the_object (fam : family) (s : string)
        (h g h' : IPRange (num_of fam)) :
  set_iprange_of fam s h = Some (Normal tt, h') ->
  set_iprange_of fam s g = Some (Normal tt, h').
Proof.
  destruct fam; cbn [set_iprange_of].
  - unfold IPv4Range.set_iprange.
    destruct (range_array s) as [|a0 [|a1 r]]; try discriminate.
    destruct (negb (_isIPv4Addr a0) || negb (_isIPv4Addr a1)); [discriminate|].
    destruct (num_gtb (_toIPv4AddrInteger a0) (_toIPv4AddrInteger a1));
      [discriminate|].
    destruct (_makeIPv4SubnetFromRange _ _ []) as [l|]; [| discriminate].
    cbn [obind]. intros E. injection E as <-. reflexivity.
  - unfold IPv6Range.set_iprange.
    destruct (range_array s) as [|a0 [|a1 r]]; try discriminate.
    destruct (negb (_isIPv6Addr a0) || negb (_isIPv6Addr a1)); [discriminate|].
    destruct (_toIPv6AddrInteger a0) as [x|]; [| discriminate].
    destruct (_toIPv6AddrInteger a1) as [y|]; [| discriminate].
    destruct (y <? x); [discriminate|].
    destruct (_makeIPv6SubnetFromRange _ _ []) as [l|]; [| discriminate].
    cbn [obind]. intros E. injection E as <-. reflexivity.
Qed.

Lemma X13_witness :
  set_iprange_of IPv4 "10.0.0.1" new_IPRange =
    Some (Normal tt, mkIPRange (Some (Num 167772161)) (Some (Num 167772161))
                               (Some ["10.0.0.1/32"%string])) /\
  set_iprange_of IPv4 "10.0.0.1"
                 (mkIPRange (Some (Num 7)) (Some (Num 9)) (Some ["x"%string])) =
    Some (Normal tt, mkIPRange (Some (Num 167772161)) (Some (Num 167772161))
                               (Some ["10.0.0.1/32"%string])).
Proof.
  split.
  - vm_compute. reflexivity.
  - apply (X13_success_overwrites_the_object IPv4 "10.0.0.1" new_IPRange).
    vm_compute. reflexivity.
Defined.

(** X14. A text without the separator is assigned as the range from the
    address to itself: the assignment of [a] does what the assignment of
    [a-a] does. *)
Theorem X14_single_address_is_the_range_to_itself (fam : family) (a : string)
        (h : IPRange (num_of fam)) :
  contains "-" a = false ->
  set_iprange_of fam a h = set_iprange_of fam (a ++ "-" ++ a) h.
Proof.
  intros Ha.
  assert (range_array (a ++ "-" ++ a) = range_array a) as E.
  { rewrite (range_array_two a a Ha Ha). unfold range_array. rewrite Ha. reflexivity. }
  destruct fam; cbn [set_iprange_of];
    unfold IPv4Range.set_iprange, IPv6Range.set_iprange; rewrite E; reflexivity.
Qed.

Lemma X14_witness :
  contains "-" "10.0.0.1" = false /\
  set_iprange_of IPv4 "10.0.0.1" new_IPRange =
  set_iprange_of IPv4 ("10.0.0.1" ++ "-" ++ "10.0.0.1") new_IPRange.
Proof.
  split.
  - reflexivity.
  - apply (X14_single_address_is_the_range_to_itself IPv4 "10.0.0.1" new_IPRange).
    reflexivity.
Defined.

(** X15. The assignment of an ascending range of two canonical addresses
    completes normally on any object; afterwards the range accessor
    returns the very text that was assigned and the subnet accessor the
    list the decomposer gives for the two addresses. *)
Theorem X15_canonical_range_round_trip (fam : family) (a b : string) (x y : Z)
        (h : IPRange (num_of fam)) :
  canonical fam a -> canonical fam b ->
  parse fam a = Some x -> parse fam b = Some y -> x <= y ->
  exists h' subs,
    set_iprange_of fam (a ++ "-" ++ b) h = Some (Normal tt, h') /\
    get_iprange_of fam h' = Normal (a ++ "-" ++ b)%string /\
    get_subnet h' = Normal subs /\
    makeSubnetFromRange fam x y [] = Some subs.
Proof.
  intros Ha Hb Ex Ey Hxy.
  destruct fam.
  - destruct (IPv4_format_parse a Ha) as [x' [Ex' [Hx Fx]]].
    destruct (IPv4_format_parse b Hb) as [y' [Ey' [Hy Fy]]].
    apply parse_IPv4_Num in Ex, Ey.
    assert (x' = x) as -> by congruence. assert (y' = y) as -> by congruence.
    destruct (decomposer_correct IPv4 x y [] ltac:(lia) ltac:(exact (proj2 Hy)))
      as [l [_ [_ [_ [Em _]]]]].
    cbn [makeSubnetFromRange app] in Em.
    cbn [set_iprange_of get_iprange_of makeSubnetFromRange].
    rewrite (IPv4_set_canonical_range a b x y h Ha Hb Ex Ey).
    destruct (Z.ltb_spec y x); [lia|]. rewrite Em.
    do 2 eexists. split; [reflexivity|].
    unfold IPv4Range.get_iprange, get_subnet.
    cbn [_intStartAddr _intEndAddr _arraySubnet]. rewrite Fx, Fy.
    repeat split.
  - destruct (IPv6_format_parse a Ha) as [x' [Ex' [Hx Fx]]].
    destruct (IPv6_format_parse b Hb) as [y' [Ey' [Hy Fy]]].
    cbn [parse] in Ex, Ey.
    assert (x' = x) as -> by congruence. assert (y' = y) as -> by congruence.
    destruct (decomposer_correct IPv6 x y [] ltac:(lia) ltac:(exact (proj2 Hy)))
      as [l [_ [_ [_ [Em _]]]]].
    cbn [makeSubnetFromRange app] in Em.
    cbn [set_iprange_of get_iprange_of makeSubnetFromRange].
    rewrite (IPv6_set_canonical_range a b x y h Ha Hb Ex Ey).
    destruct (Z.ltb_spec y x); [lia|]. rewrite Em.
    do 2 eexists. split; [reflexivity|].
    unfold IPv6Range.get_iprange, get_subnet.
    cbn [_intStartAddr _intEndAddr _arraySubnet]. rewrite Fx, Fy.
    repeat split.
Qed.

Lemma X15_witness :
  (canonical IPv4 "10.0.0.1" /\ canonical IPv4 "10.0.0.6" /\
   parse IPv4 "10.0.0.1" = Some 167772161 /\
   parse IPv4 "10.0.0.6" = Some 167772166 /\ 167772161 <= 167772166) /\
  exists h' subs,
    set_iprange_of IPv4 ("10.0.0.1" ++ "-" ++ "10.0.0.6") new_IPRange =
      Some (Normal tt, h') /\
    get_iprange_of IPv4 h' = Normal ("10.0.0.1" ++ "-" ++ "10.0.0.6")%string /\
    get_subnet h' = Normal subs /\
    makeSubnetFromRange IPv4 167772161 167772166 [] = Some subs.
Proof.
  assert (canonical IPv4 "10.0.0.1") as Ha.
  { exists ["10"; "0"; "0"; "1"]%string. repeat split. }
  assert (canonical IPv4 "10.0.0.6") as Hb.
  { exists ["10"; "0"; "0"; "6"]%string. repeat split. }
  split.
  - split; [exact Ha | split; [exact Hb |]].
    split; [reflexivity | split; [reflexivity | lia]].
  - apply (X15_canonical_range_round_trip IPv4 "10.0.0.1" "10.0.0.6"
             167772161 167772166 new_IPRange Ha Hb);
      [reflexivity | reflexivity | lia].
Defined.

(** X16. The assignment of a descending range of two canonical addresses
    throws the address error on any object, yet not before the two bounds
    are stored: afterwards the range accessor returns the rejected text,
    and the subnet accessor does what it did before. *)
Theorem X16_descending_range_rejected_after_storing (fam : family) (a b : string)
        (x y : Z) (h : IPRange (num_of fam)) :
  canonical fam a -> canonical fam b ->
  parse fam a = Some x -> parse fam b = Some y -> y < x ->
  exists h',
    set_iprange_of fam (a ++ "-" ++ b) h = Some (Throw IPRangeAddressError, h') /\
    get_iprange_of fam h' = Normal (a ++ "-" ++ b)%string /\
    get_subnet h' = get_subnet h.
Proof.
  intros Ha Hb Ex Ey Hxy.
  destruct fam.
  - destruct (IPv4_format_parse a Ha) as [x' [Ex' [Hx Fx]]].
    destruct (IPv4_format_parse b Hb) as [y' [Ey' [Hy Fy]]].
    apply parse_IPv4_Num in Ex, Ey.
    assert (x' = x) as -> by congruence. assert (y' = y) as -> by congruence.
    cbn [set_iprange_of get_iprange_of].
    rewrite (IPv4_set_canonical_range a b x y h Ha Hb Ex Ey).
    destruct (Z.ltb_spec y x); [|lia].
    eexists. split; [reflexivity|].
    unfold IPv4Range.get_iprange, get_subnet.
    cbn [_intStartAddr _intEndAddr _arraySubnet]. rewrite Fx, Fy.
    split; reflexivity.
  - destruct (IPv6_format_parse a Ha) as [x' [Ex' [Hx Fx]]].
    destruct (IPv6_format_parse b Hb) as [y' [Ey' [Hy Fy]]].
    cbn [parse] in Ex, Ey.
    assert (x' = x) as -> by congruence. assert (y' = y) as -> by congruence.
    cbn [set_iprange_of get_iprange_of].
    rewrite (IPv6_set_canonical_range a b x y h Ha Hb Ex Ey).
    destruct (Z.ltb_spec y x); [|lia].
    eexists. split; [reflexivity|].
    unfold IPv6Range.get_iprange, get_subnet.
    cbn [_intStartAddr _intEndAddr _arraySubnet]. rewrite Fx, Fy.
    split; reflexivity.
Qed.

Lemma X16_witness :
  (canonical IPv4 "10.0.0.6" /\ canonical IPv4 "10.0.0.1" /\
   parse IPv4 "10.0.0.6" = Some 167772166 /\
   parse IPv4 "10.0.0.1" = Some 167772161 /\ 167772161 < 167772166) /\
  exists h',
    set_iprange_of IPv4 ("10.0.0.6" ++ "-" ++ "10.0.0.1") new_IPRange =
      Some (Throw IPRangeAddressError, h') /\
    get_iprange_of IPv4 h' = Normal ("10.0.0.6" ++ "-" ++ "10.0.0.1")%string /\
    get_subnet h' = get_subnet (@new_IPRange (num_of IPv4)).
Proof.
  assert (canonical IPv4 "10.0.0.1") as Ha.
  { exists ["10"; "0"; "0"; "1"]%string. repeat split. }
  assert (canonical IPv4 "10.0.0.6") as Hb.
  { exists ["10"; "0"; "0"; "6"]%string. repeat split. }
  split.
  - split; [exact Hb | split; [exact Ha |]].
    split; [reflexivity | split; [reflexivity | lia]].
  - apply (X16_descending_range_rejected_after_storing IPv4 "10.0.0.6" "10.0.0.1"
             167772166 167772161 new_IPRange Hb Ha);
      [reflexivity | reflexivity | lia].
Defined.

(** What passes the IPv4 check converts to an address when [parseInt]
    reads a Number in each of its four parts, and to [NaN] when it reads
    [NaN] in one of them. *)
Lemma isIPv4Addr_integer_cases (a : string) :
  _isIPv4Addr a = true ->
  (exists z, _toIPv4AddrInteger a = Num z /\ 0 <= z < 2 ^ 32 /\
             forall g, In g (split "." a) -> parseInt g <> NaN) \/
  (_toIPv4AddrInteger a = NaN /\
   exists g, In g (split "." a) /\ parseInt g = NaN).
Proof.
  unfold _isIPv4Addr, _toIPv4AddrInteger.
  destruct (split "." a) as [|g1 [|g2 [|g3 [|g4 [|g5 r]]]]]; try discriminate.
  cbn [List.length Nat.eqb negb forallb]. unfold parseInt_at. cbn [nth_error].
  intros H.
  apply andb_true_iff in H. destruct H as [H1 H].
  apply andb_true_iff in H. destruct H as [H2 H].
  apply andb_true_iff in H. destruct H as [H3 H].
  apply andb_true_iff in H. destruct H as [H4 _].
  destruct (parseInt g1) as [|n1] eqn:E1.
  { right. split; [reflexivity|]. exists g1. split; [left; reflexivity | exact E1]. }
  destruct (parseInt g2) as [|n2] eqn:E2.
  { right. split; [reflexivity|]. exists g2.
    split; [right; left; reflexivity | exact E2]. }
  destruct (parseInt g3) as [|n3] eqn:E3.
  { right. split; [reflexivity|]. exists g3.
    split; [right; right; left; reflexivity | exact E3]. }
  destruct (parseInt g4) as [|n4] eqn:E4.
  { right. split; [reflexivity|]. exists g4.
    split; [right; right; right; left; reflexivity | exact E4]. }
  left. eexists. split; [reflexivity|]. split.
  - unfold num_geb, num_ltb in *. change (2 ^ 32) with 4294967296. lia.
  - intros g [<- | [<- | [<- | [<- | []]]]]; congruence.
Qed.

(** X17. What passes the address check of a family converts to an address
    of the family, [0 <= z < 2^width], with one exception: an IPv4 text
    converts to [NaN] when [parseInt] reads [NaN] in one of its four parts
    (no digit after the white space and the sign), and only then. *)
Theorem X17_checked_text_converts_in_range (fam : family) (a : string) :
  isAddr fam a = true ->
  (exists z, parse fam a = Some z /\ 0 <= z < 2 ^ width fam /\
             (fam = IPv4 -> forall g, In g (split "." a) -> parseInt g <> NaN)) \/
  (fam = IPv4 /\ _toIPv4AddrInteger a = NaN /\
   exists g, In g (split "." a) /\ parseInt g = NaN).
Proof.
  destruct fam; cbn [isAddr parse width]; intros H.
  - destruct (isIPv4Addr_integer_cases a H) as [[z [E [Hz Hg]]] | [E Hg]].
    + left. exists z. rewrite E. split; [reflexivity|]. split; [exact Hz|].
      intros _. exact Hg.
    + right. split; [reflexivity|]. split; [exact E | exact Hg].
  - left. destruct (isIPv6Addr_integer a H) as [z [E Hz]].
    exists z. split; [exact E|]. split; [exact Hz | discriminate].
Qed.

Lemma X17_witness :
  isAddr IPv4 "1x.2.3.4" = true /\
  ((exists z, parse IPv4 "1x.2.3.4" = Some z /\ 0 <= z < 2 ^ width IPv4 /\
              (IPv4 = IPv4 ->
               forall g, In g (split "." "1x.2.3.4") -> parseInt g <> NaN)) \/
   (IPv4 = IPv4 /\ _toIPv4AddrInteger "1x.2.3.4" = NaN /\
    exists g, In g (split "." "1x.2.3.4") /\ parseInt g = NaN)).
Proof.
  split.
  - vm_compute. reflexivity.
  - apply (X17_checked_text_converts_in_range IPv4 "1x.2.3.4").
    vm_compute. reflexivity.
Defined.

(** Examples of X17: a part without a digit makes the text convert to
    [NaN]; with a digit at the head of each part it converts to an
    address. *)
Example checked_texts_convert :
  _isIPv4Addr "a.1.2.3" = true /\ _toIPv4AddrInteger "a.1.2.3" = NaN /\
  parseInt "a" = NaN /\
  _isIPv4Addr "1x.2.3.4" = true /\ _toIPv4AddrInteger "1x.2.3.4" = Num 16909060.
Proof. repeat split; vm_compute; reflexivity. Qed.
